(** * bestfirst.py: the best-first search frontier

    A shallow embedding of [PriorityQueue], [FrontierBestFirst],
    [FrontierAStar] and [FrontierGreedy], with the properties of the
    frontier specification stated and proved over it. *)

From stdpp Require Import base list gmap sorting.
From Stdlib Require Import ZArith Lia.

Local Open Scope Z_scope.

(** ** Python values, exceptions, and a state-and-exception monad *)

(** The exceptions the module can raise. [OutOfFuel] is not one of Python's:
    it marks a loop of the model that used up its fuel, and [pop_fuel] and
    [pop_all_fuel] show that the loops of the queue never do. *)
Inductive exn : Set :=
| TypeError
| KeyError
| IndexError
| OutOfFuel.

Inductive result (A : Type) : Type :=
| Return (a : A)
| Raise (e : exn).
Arguments Return {A} a.
Arguments Raise {A} e.

(** A method of an object with state [S]: it returns or raises, and in both
    cases leaves the object in some state (an exception does not undo the
    mutations made before it). *)
Definition M (S A : Type) : Type := S → result A * S.

Definition ret {S A} (a : A) : M S A := fun s => (Return a, s).
Definition raise {S A} (e : exn) : M S A := fun s => (Raise e, s).
Definition bind {S A B} (m : M S A) (k : A → M S B) : M S B :=
  fun s => match m s with
           | (Return a, s') => k a s'
           | (Raise e, s') => (Raise e, s')
           end.

Notation "'let*' x ':=' m 'in' k" := (bind m (fun x => k))
  (at level 10, x name, m at level 100, k at level 200, only parsing).

(** ** heapq

    [heappush], [heappop], [_siftdown] and [_siftup] of Python's [heapq]
    (CPython, Lib/heapq.py) on a list, with the comparison [lt] of the items
    as a parameter: [heappush] appends and sifts the new item towards the
    root, [heappop] moves the last item to the root and sifts it to a leaf
    and back. The two loops run on fuel and end as the Python loops do when
    it is used up; each is given as much as its index can move, and
    [siftdown_loop_fuel] and [siftup_loop_fuel] show that more changes
    nothing. *)
Module heapq.
Section heapq.
Context {A : Type} `{!Inhabited A} (lt : A → A → bool).

Fixpoint siftdown_loop (fuel : nat) (heap : list A) (newitem : A)
    (startpos pos : nat) : list A :=
  match fuel with
  | O => <[pos := newitem]> heap
  | S fuel' =>
      if bool_decide (startpos < pos)%nat then
        let parentpos := ((pos - 1) / 2)%nat in
        let parent := heap !!! parentpos in
        if lt newitem parent
        then siftdown_loop fuel' (<[pos := parent]> heap) newitem startpos parentpos
        else <[pos := newitem]> heap
      else <[pos := newitem]> heap
  end.

Definition siftdown (heap : list A) (startpos pos : nat) : list A :=
  siftdown_loop pos heap (heap !!! pos) startpos pos.

(** The loop of [_siftup]: the smaller child moves up until [pos] is a
    leaf; it returns the list and the leaf. *)
Fixpoint siftup_loop (fuel : nat) (heap : list A) (pos : nat) : list A * nat :=
  match fuel with
  | O => (heap, pos)
  | S fuel' =>
      let endpos := length heap in
      let childpos := (2 * pos + 1)%nat in
      if bool_decide (childpos < endpos)%nat then
        let rightpos := (childpos + 1)%nat in
        let childpos :=
          if bool_decide (rightpos < endpos)%nat
             && negb (lt (heap !!! childpos) (heap !!! rightpos))
          then rightpos else childpos in
        siftup_loop fuel' (<[pos := heap !!! childpos]> heap) childpos
      else (heap, pos)
  end.

Definition siftup (heap : list A) (pos : nat) : list A :=
  let startpos := pos in
  let newitem := heap !!! pos in
  let '(heap, pos) := siftup_loop (length heap) heap pos in
  siftdown (<[pos := newitem]> heap) startpos pos.

Definition heappush (heap : list A) (item : A) : list A :=
  siftdown (heap ++ [item]) 0 (length heap).

(** [None] is the IndexError of [heap.pop()] on an empty list. *)
Definition heappop (heap : list A) : option (A * list A) :=
  match last heap with
  | None => None
  | Some lastelt =>
      let heap := removelast heap in
      match heap with
      | [] => Some (lastelt, heap)
      | returnitem :: _ => Some (returnitem, siftup (<[0%nat := lastelt]> heap) 0)
      end
  end.

(** Every item is not smaller than its parent. *)
Definition heap_inv (heap : list A) : Prop :=
  ∀ i x y, (0 < i)%nat → heap !! i = Some x →
           heap !! ((i - 1) / 2)%nat = Some y → lt x y = false.

(** The state of the loop of [_siftdown]: the heap with the item [x] still
    to be written at [pos]. *)
Record hole_inv (heap : list A) (pos : nat) (x : A) : Prop := {
  hole_others : ∀ i c p, (0 < i)%nat → i ≠ pos → ((i - 1) / 2)%nat ≠ pos →
    heap !! i = Some c → heap !! ((i - 1) / 2)%nat = Some p → lt c p = false;
  hole_grand : ∀ i c gp, (0 < i)%nat → ((i - 1) / 2)%nat = pos → (0 < pos)%nat →
    heap !! i = Some c → heap !! ((pos - 1) / 2)%nat = Some gp → lt c gp = false;
  hole_below : ∀ i c, (0 < i)%nat → ((i - 1) / 2)%nat = pos →
    heap !! i = Some c → lt c x = false
}.

(** The state of the first loop of [_siftup]: a gap at [pos], whose
    children are not smaller than its parent. *)
Record gap_inv (heap : list A) (pos : nat) : Prop := {
  gap_others : ∀ i c p, (0 < i)%nat → i ≠ pos → ((i - 1) / 2)%nat ≠ pos →
    heap !! i = Some c → heap !! ((i - 1) / 2)%nat = Some p → lt c p = false;
  gap_grand : ∀ i c gp, (0 < i)%nat → ((i - 1) / 2)%nat = pos → (0 < pos)%nat →
    heap !! i = Some c → heap !! ((pos - 1) / 2)%nat = Some gp → lt c gp = false
}.
End heapq.
End heapq.

(** ** The collaborators of the frontier *)

(** Modelled from the spec: [domains.hospital.state.HospitalState], which
    is imported and not defined here. The spec asks of a state value
    equality and a stable hash, so that it can be a dictionary key, and a way
    to obtain the accumulated path cost; the frontier reads
    [state.path_cost]. [state_id] stands for what [__eq__] and [__hash__]
    look at, so two objects for the same state reached along different paths
    have the same [state_id] and may differ in [path_cost]. *)
Record HospitalState : Set := mkState { state_id : nat; path_cost : Z }.

(** Modelled from the spec:
    [domains.hospital.goal_description.HospitalGoalDescription], imported and
    not defined here; the spec has it as an opaque token that the frontier
    stores and passes on. *)
Definition HospitalGoalDescription : Set := nat.

(** What the frontier calls in [domains.hospital.heuristics] and on a state:
    imported and not defined here, so the frontier is taken with these as
    parameters. *)
Record hospital_domain : Type := mkDomain {
  HospitalZeroHeuristic : HospitalState → Z;
  HospitalAdvancedHeuristics : HospitalState → Z;
  extract_plan : HospitalState → HospitalState → list nat
}.

(** The heuristic handed to the constructors of the A* and greedy frontiers. *)
Definition Heuristic : Type := HospitalState → Z.

(** ** PriorityQueue *)

(** An entry is the Python list [[priority, -count, element]]; [element] is
    [None] once the entry has been invalidated. *)
Record Entry : Set := mkEntry {
  priority : Z;
  order_key : Z;
  element : option HospitalState
}.

Global Instance Entry_inhabited : Inhabited Entry := populate (mkEntry 0 0 None).

(** [entry1 < entry2] on Python lists: the first position where they differ
    decides. The third position is looked at only when priority and count
    both tie, which [wf_distinct] below excludes for the entries of one
    heap; the model answers [false] there. *)
Definition entry_lt (e1 e2 : Entry) : bool :=
  if bool_decide (priority e1 ≠ priority e2) then bool_decide (priority e1 < priority e2)
  else if bool_decide (order_key e1 ≠ order_key e2) then bool_decide (order_key e1 < order_key e2)
  else false.

(** [entry[2] = None] *)
Definition invalidate (e : Entry) : Entry :=
  {| priority := priority e; order_key := order_key e; element := None |}.

Module PriorityQueue.

(** The heap and the entry finder hold references to the same entry
    objects: [objs] is the store of the entries created so far, addressed
    by position, [heap] and [entry_finder] hold addresses. [counter] is the
    next value of [itertools.count()]. *)
Record t : Type := mk {
  objs : list Entry;
  heap : list nat;
  entry_finder : gmap nat nat;
  counter : nat
}.

(** Comparison of two references held by the heap. *)
Definition ref_lt (objs : list Entry) (a b : nat) : bool :=
  entry_lt (objs !!! a) (objs !!! b).

Definition init : t := mk [] [] ∅ 0.

Definition add (element : HospitalState) (priority : Z) : M t unit := fun self =>
  let count := counter self in
  let entry := mkEntry priority (- Z.of_nat count) (Some element) in
  let a := length (objs self) in
  let objs' := objs self ++ [entry] in
  (Return tt,
   mk objs'
      (heapq.heappush (ref_lt objs') (heap self) a)
      (<[state_id element := a]> (entry_finder self))
      (S count)).

Definition change_priority (element : HospitalState) (new_priority : Z) : M t unit :=
  fun self =>
    match entry_finder self !! state_id element with
    | None => (Raise KeyError, self)
    | Some a =>
        add element new_priority
            (mk (alter invalidate a (objs self))
                (heap self)
                (delete (state_id element) (entry_finder self))
                (counter self))
    end.

(** The [while True] loop of [pop]: it returns the address of the first
    entry taken from the heap whose element is not [None], with that
    element, and the heap that is left. *)
Fixpoint pop_loop (fuel : nat) (objs : list Entry) (heap : list nat)
    : result (nat * HospitalState) * list nat :=
  match fuel with
  | O => (Raise OutOfFuel, heap)
  | S fuel' =>
      match heapq.heappop (ref_lt objs) heap with
      | None => (Raise IndexError, heap)
      | Some (a, heap') =>
          match element (objs !!! a) with
          | Some state => (Return (a, state), heap')
          | None => pop_loop fuel' objs heap'
          end
      end
  end.

Definition pop : M t HospitalState := fun self =>
  match pop_loop (S (length (heap self))) (objs self) (heap self) with
  | (Raise e, heap') =>
      (Raise e, mk (objs self) heap' (entry_finder self) (counter self))
  | (Return (_, state), heap') =>
      match entry_finder self !! state_id state with
      | None =>
          (Raise KeyError, mk (objs self) heap' (entry_finder self) (counter self))
      | Some _ =>
          (Return state,
           mk (objs self) heap' (delete (state_id state) (entry_finder self))
              (counter self))
      end
  end.

Definition clear : M t unit := fun self =>
  (Return tt, mk (objs self) [] ∅ 0).

Definition size (self : t) : nat := size (entry_finder self).

Definition get_priority (element : HospitalState) (self : t) : option Z :=
  match entry_finder self !! state_id element with
  | None => None
  | Some a => Some (priority (objs self !!! a))
  end.

End PriorityQueue.

(** ** The frontiers *)

Inductive frontier_class : Set := BestFirst | AStar | Greedy.

(** A frontier object: its class and its attributes. [heuristic] is set by
    the constructors of [FrontierAStar] and [FrontierGreedy] only. *)
Record Frontier : Type := mkFrontier {
  cls : frontier_class;
  goal_description : option HospitalGoalDescription;
  priority_queue : PriorityQueue.t;
  heuristic : option Heuristic
}.

(** The values that are passed to and returned by the methods. *)
Inductive pyval : Type :=
| VNone
| VBool (b : bool)
| VInt (z : Z)
| VState (s : HospitalState)
| VFrontier (self : Frontier).

(** A call [self.priority_queue.method(args)] of a method with one, or with
    two, parameters after [self]: Python binds the positional arguments to
    them and raises TypeError when there are too few or too many. *)
Definition call1 {S A} (method : pyval → M S A) (args : list pyval) : M S A :=
  match args with
  | [x] => method x
  | _ => raise TypeError
  end.

Definition call2 {S A} (method : pyval → pyval → M S A) (args : list pyval) : M S A :=
  match args with
  | [x; y] => method x y
  | _ => raise TypeError
  end.

(** [PriorityQueue.get_priority] and [PriorityQueue.change_priority] on
    arbitrary arguments: only a state can be a key of the entry finder, and
    only an integer can be ordered with the priorities in the heap. *)
Definition get_priority_of (element : pyval) : M PriorityQueue.t (option Z) := fun self =>
  match element with
  | VState state => (Return (PriorityQueue.get_priority state self), self)
  | _ => (Return None, self)
  end.

Definition change_priority_of (element new_priority : pyval) : M PriorityQueue.t unit :=
  match element, new_priority with
  | VState state, VInt p => PriorityQueue.change_priority state p
  | VState _, _ => raise TypeError
  | _, _ => raise KeyError
  end.

(** A method of [self.priority_queue] run on the frontier. *)
Definition on_queue {A} (m : M PriorityQueue.t A) : M Frontier A := fun self =>
  let '(r, pq) := m (priority_queue self) in
  (r, mkFrontier (cls self) (goal_description self) pq (heuristic self)).

Module FrontierBestFirst.

Definition init : Frontier := mkFrontier BestFirst None PriorityQueue.init None.

Definition prepare (goal_description : HospitalGoalDescription) : M Frontier unit :=
  fun self =>
    on_queue PriorityQueue.clear
      (mkFrontier (cls self) (Some goal_description) (priority_queue self) (heuristic self)).

Definition g (self : Frontier) (state : HospitalState)
    (goal_description : option HospitalGoalDescription) : Z :=
  path_cost state.

Definition h (self : Frontier) (state : HospitalState)
    (goal_description : option HospitalGoalDescription) : Z :=
  0.

Definition f (self : Frontier) (state : HospitalState)
    (goal_description : option HospitalGoalDescription) : Z :=
  h self state goal_description + g self state goal_description.

Definition contains (state : HospitalState) (self : Frontier) : bool :=
  negb (bool_decide (PriorityQueue.get_priority state (priority_queue self) = None)).

(** In the [elif] branch the two methods of the queue are called with
    [self] as an extra first argument. *)
Definition add (state : HospitalState) : M Frontier unit := fun self =>
  if negb (contains state self) then
    on_queue (PriorityQueue.add state (f self state (goal_description self))) self
  else
    (let* stored := on_queue (call1 get_priority_of [VFrontier self; VState state]) in
     let new := f self state (goal_description self) in
     match stored with
     | None => raise TypeError
     | Some stored =>
         if bool_decide (stored > new) then
           on_queue (call2 change_priority_of
                       [VFrontier self; VState state; VInt new])
         else ret tt
     end) self.

Definition pop : M Frontier HospitalState := on_queue PriorityQueue.pop.

Definition size (self : Frontier) : nat := PriorityQueue.size (priority_queue self).

Definition is_empty (self : Frontier) : bool := bool_decide (size self = 0%nat).

End FrontierBestFirst.

(** The subclasses: the constructor stores the heuristic; [g] and [h] are
    overridden; everything else is inherited. *)
Module FrontierAStar.

Definition init (heuristic : Heuristic) : Frontier :=
  mkFrontier AStar (goal_description FrontierBestFirst.init)
             (priority_queue FrontierBestFirst.init) (Some heuristic).

Definition g (D : hospital_domain) (self : Frontier) (state : HospitalState)
    (goal_description : option HospitalGoalDescription) : Z :=
  Z.of_nat (length (extract_plan D state state)).

Definition h (D : hospital_domain) (self : Frontier) (state : HospitalState)
    (goal_description : option HospitalGoalDescription) : Z :=
  HospitalZeroHeuristic D state.

End FrontierAStar.

Module FrontierGreedy.

Definition init (heuristic : Heuristic) : Frontier :=
  mkFrontier Greedy (goal_description FrontierBestFirst.init)
             (priority_queue FrontierBestFirst.init) (Some heuristic).

Definition g (D : hospital_domain) (self : Frontier) (state : HospitalState)
    (goal_description : option HospitalGoalDescription) : Z :=
  0.

Definition h (D : hospital_domain) (self : Frontier) (state : HospitalState)
    (goal_description : option HospitalGoalDescription) : Z :=
  HospitalAdvancedHeuristics D state.

End FrontierGreedy.

(** *** Method calls on a frontier of any of the three classes *)

Inductive method_call : Set :=
| Call_prepare (goal_description : HospitalGoalDescription)
| Call_add (state : HospitalState)
| Call_pop
| Call_contains (state : HospitalState)
| Call_size
| Call_is_empty
| Call_g (state : HospitalState)
| Call_h (state : HospitalState)
| Call_f (state : HospitalState).

(** [self.g] and [self.h] resolve to the method of the object's class; the
    other methods are defined in [FrontierBestFirst] only. *)
Definition resolve_g (D : hospital_domain) (self : Frontier) :=
  match cls self with
  | BestFirst => FrontierBestFirst.g self
  | AStar => FrontierAStar.g D self
  | Greedy => FrontierGreedy.g D self
  end.

Definition resolve_h (D : hospital_domain) (self : Frontier) :=
  match cls self with
  | BestFirst => FrontierBestFirst.h self
  | AStar => FrontierAStar.h D self
  | Greedy => FrontierGreedy.h D self
  end.

Definition invoke (D : hospital_domain) (c : method_call) : M Frontier pyval :=
  match c with
  | Call_prepare gd => let* _ := FrontierBestFirst.prepare gd in ret VNone
  | Call_add state => let* _ := FrontierBestFirst.add state in ret VNone
  | Call_pop => let* state := FrontierBestFirst.pop in ret (VState state)
  | Call_contains state => fun self => (Return (VBool (FrontierBestFirst.contains state self)), self)
  | Call_size => fun self => (Return (VInt (Z.of_nat (FrontierBestFirst.size self))), self)
  | Call_is_empty => fun self => (Return (VBool (FrontierBestFirst.is_empty self)), self)
  | Call_g state => fun self => (Return (VInt (resolve_g D self state (goal_description self))), self)
  | Call_h state => fun self => (Return (VInt (resolve_h D self state (goal_description self))), self)
  | Call_f state => fun self => (Return (VInt (FrontierBestFirst.f self state (goal_description self))), self)
  end.

(** A sequence of calls; a caller that catches the exceptions goes on with
    the object as the failed call left it. The results are listed in order. *)
Fixpoint invoke_all (D : hospital_domain) (cs : list method_call) (self : Frontier)
    : list (result pyval) * Frontier :=
  match cs with
  | [] => ([], self)
  | c :: cs =>
      let '(r, self') := invoke D c self in
      let '(rs, self'') := invoke_all D cs self' in
      (r :: rs, self'')
  end.

(** ** Sequences of operations on a queue *)

Inductive queue_op : Set :=
| Op_add (element : HospitalState) (priority : Z)
| Op_change_priority (element : HospitalState) (new_priority : Z)
| Op_pop
| Op_clear.

(** One operation; [pop] hands back the state it returns. *)
Definition perform (o : queue_op) : M PriorityQueue.t (option HospitalState) :=
  match o with
  | Op_add element priority =>
      let* _ := PriorityQueue.add element priority in ret None
  | Op_change_priority element new_priority =>
      let* _ := PriorityQueue.change_priority element new_priority in ret None
  | Op_pop => let* state := PriorityQueue.pop in ret (Some state)
  | Op_clear => let* _ := PriorityQueue.clear in ret None
  end.

(** The queue after a sequence of operations. An operation that raises
    leaves the queue as it was at the exception, and the sequence goes on. *)
Fixpoint run (ops : list queue_op) (q : PriorityQueue.t) : PriorityQueue.t :=
  match ops with
  | [] => q
  | o :: ops => run ops (snd (perform o q))
  end.

(** The precondition of [add]: the payload is not tracked by the index. *)
Definition within_contract (o : queue_op) (q : PriorityQueue.t) : bool :=
  match o with
  | Op_add element _ => bool_decide (PriorityQueue.get_priority element q = None)
  | _ => true
  end.

Fixpoint contract_kept (ops : list queue_op) (q : PriorityQueue.t) : bool :=
  match ops with
  | [] => true
  | o :: ops => within_contract o q && contract_kept ops (snd (perform o q))
  end.

(** The payloads added and not yet popped, from the history of the calls and
    of what they returned. *)
Definition record_op (o : queue_op) (r : result (option HospitalState))
    (added : gset nat) : gset nat :=
  match o, r with
  | Op_add element _, Return _ => {[state_id element]} ∪ added
  | Op_pop, Return (Some state) => added ∖ {[state_id state]}
  | Op_clear, _ => ∅
  | _, _ => added
  end.

Fixpoint added_not_popped (ops : list queue_op) (q : PriorityQueue.t)
    (added : gset nat) : gset nat :=
  match ops with
  | [] => added
  | o :: ops =>
      let '(r, q') := perform o q in
      added_not_popped ops q' (record_op o r added)
  end.

(** Repeated [pop] until it raises: the states returned, each with what
    [get_priority] answered for it just before the call, and the exception
    that ended the run. *)
Fixpoint pop_repeatedly (fuel : nat) (q : PriorityQueue.t)
    : list (option Z * HospitalState) * exn :=
  match fuel with
  | O => ([], OutOfFuel)
  | S fuel' =>
      match PriorityQueue.pop q with
      | (Return state, q') =>
          let rest := pop_repeatedly fuel' q' in
          ((PriorityQueue.get_priority state q, state) :: rest.1, rest.2)
      | (Raise e, _) => ([], e)
      end
  end.

(** Every [pop] that returns takes at least one entry from the heap, so the
    fuel is enough to reach the exception. *)
Definition pop_all (q : PriorityQueue.t) : list (option Z * HospitalState) * exn :=
  pop_repeatedly (S (length (PriorityQueue.heap q))) q.

(** The entry that the index holds for a payload. *)
Definition tracked_entry (state : HospitalState) (q : PriorityQueue.t) : option Entry :=
  (λ a, PriorityQueue.objs q !!! a) <$> PriorityQueue.entry_finder q !! state_id state.

(** The entries of the heap that are not invalidated. *)
Definition live (objs : list Entry) (a : nat) : bool :=
  bool_decide (element (objs !!! a) ≠ None).

Definition live_entries (q : PriorityQueue.t) : list nat :=
  filter (λ a, live (PriorityQueue.objs q) a = true) (PriorityQueue.heap q).

(** The live entries that the index tracks: the entry is the one that the
    index holds for its payload. *)
Definition tracked (q : PriorityQueue.t) (a : nat) : bool :=
  match element (PriorityQueue.objs q !!! a) with
  | Some s => bool_decide (PriorityQueue.entry_finder q !! state_id s = Some a)
  | None => false
  end.

Definition tracked_entries (q : PriorityQueue.t) : list nat :=
  filter (λ a, tracked q a = true) (PriorityQueue.heap q).

(** The lexicographic order of the pairs [(priority, order-key)]. *)
Definition key_le (e1 e2 : Entry) : Prop :=
  priority e1 < priority e2 ∨ (priority e1 = priority e2 ∧ order_key e1 ≤ order_key e2).

Definition key_lt (e1 e2 : Entry) : Prop :=
  priority e1 < priority e2 ∨ (priority e1 = priority e2 ∧ order_key e1 < order_key e2).

(** The value of the counter that [add] stored, negated, in an entry. *)
Definition insertion_count (e : Entry) : Z := - order_key e.

(** ** The invariant of the queue *)

(** What holds of a queue after any calls whatsoever. *)
Record wf (q : PriorityQueue.t) : Prop := {
  wf_addr : ∀ a, a ∈ PriorityQueue.heap q → (a < length (PriorityQueue.objs q))%nat;
  wf_nodup : NoDup (PriorityQueue.heap q);
  wf_heap : heapq.heap_inv (PriorityQueue.ref_lt (PriorityQueue.objs q)) (PriorityQueue.heap q);
  wf_count : ∀ a, a ∈ PriorityQueue.heap q →
    ∃ c : nat, order_key (PriorityQueue.objs q !!! a) = - Z.of_nat c ∧
               (c < PriorityQueue.counter q)%nat;
  wf_distinct : ∀ a b, a ∈ PriorityQueue.heap q → b ∈ PriorityQueue.heap q →
    order_key (PriorityQueue.objs q !!! a) = order_key (PriorityQueue.objs q !!! b) → a = b;
  wf_finder : ∀ k a, PriorityQueue.entry_finder q !! k = Some a →
    a ∈ PriorityQueue.heap q ∧
    ∃ s, element (PriorityQueue.objs q !!! a) = Some s ∧ state_id s = k
}.

(** What holds in addition while [add] is only called on payloads that the
    index does not track: the index points at every live entry (I1). *)
Definition live_tracked (q : PriorityQueue.t) : Prop :=
  ∀ a s, a ∈ PriorityQueue.heap q → element (PriorityQueue.objs q !!! a) = Some s →
         PriorityQueue.entry_finder q !! state_id s = Some a.

(** [change_priority] on a tracked payload: the queue between the
    invalidation of the old entry and the [add]. *)
Definition invalidated (s : HospitalState) (a : nat) (q : PriorityQueue.t) : PriorityQueue.t :=
  PriorityQueue.mk (alter invalidate a (PriorityQueue.objs q)) (PriorityQueue.heap q)
    (delete (state_id s) (PriorityQueue.entry_finder q)) (PriorityQueue.counter q).

(** The payload of an entry, for counting the live entries by payload. *)
Definition payload_id (objs : list Entry) (a : nat) : nat :=
  match element (objs !!! a) with
  | Some s => state_id s
  | None => 0
  end.

(** A queue in which one live entry, [a], with payload [k], is not the one
    the index holds for [k]; every other live entry is tracked. *)
Definition one_stale (q : PriorityQueue.t) (a k : nat) : Prop :=
  a ∈ PriorityQueue.heap q ∧
  (∃ s, element (PriorityQueue.objs q !!! a) = Some s ∧ state_id s = k) ∧
  PriorityQueue.entry_finder q !! k ≠ Some a ∧
  ∀ b s, b ∈ PriorityQueue.heap q → b ≠ a →
         element (PriorityQueue.objs q !!! b) = Some s →
         PriorityQueue.entry_finder q !! state_id s = Some b.

(** ** What a frontier keeps of its queue *)

(** Every entry holds the path cost of its state as priority. *)
Definition priced (q : PriorityQueue.t) : Prop :=
  ∀ a s, a ∈ PriorityQueue.heap q → element (PriorityQueue.objs q !!! a) = Some s →
         priority (PriorityQueue.objs q !!! a) = path_cost s.

(** No entry of the heap is invalidated. *)
Definition no_invalidated (q : PriorityQueue.t) : Prop :=
  ∀ a, a ∈ PriorityQueue.heap q → element (PriorityQueue.objs q !!! a) ≠ None.

(** The queue of a frontier: [FrontierBestFirst.add] keeps to the contract
    of [PriorityQueue.add], inserts at the path cost, and changes no
    priority. *)
Definition frontier_queue (q : PriorityQueue.t) : Prop :=
  wf q ∧ live_tracked q ∧ priced q ∧ no_invalidated q.

(** The methods that the subclasses inherit. *)
Definition inherited (c : method_call) : bool :=
  match c with
  | Call_g _ | Call_h _ => false
  | _ => true
  end.

(** [FrontierBestFirst.pop] repeated until it raises: the states returned
    and the exception that ended the run. *)
Fixpoint frontier_pop_repeatedly (fuel : nat) (self : Frontier)
    : list HospitalState * exn :=
  match fuel with
  | O => ([], OutOfFuel)
  | S fuel' =>
      match FrontierBestFirst.pop self with
      | (Return state, self') =>
          let rest := frontier_pop_repeatedly fuel' self' in
          (state :: rest.1, rest.2)
      | (Raise e, _) => ([], e)
      end
  end.

Definition frontier_pop_all (self : Frontier) : list HospitalState * exn :=
  frontier_pop_repeatedly (S (length (PriorityQueue.heap (priority_queue self)))) self.

(** ** A caller that waits for a payload *)


(** ** Reuse of a queue *)

(** What a sequence of operations returns or raises, in order. *)
Fixpoint outcomes (ops : list queue_op) (q : PriorityQueue.t)
    : list (result (option HospitalState)) :=
  match ops with
  | [] => []
  | o :: ops => (perform o q).1 :: outcomes ops (perform o q).2
  end.

(** The queue [q] at other addresses: the store begins with the older
    entries [old], which neither the heap nor the index refers to. *)
Definition relocate (old : list Entry) (q : PriorityQueue.t) : PriorityQueue.t :=
  PriorityQueue.mk
    (old ++ PriorityQueue.objs q)
    ((λ a, length old + a)%nat <$> PriorityQueue.heap q)
    ((λ a, length old + a)%nat <$> PriorityQueue.entry_finder q)
    (PriorityQueue.counter q).

(** ** Facts about heapq *)

Section heapq_facts.
Context {A : Type} `{!Inhabited A} (lt : A → A → bool).
Hypothesis lt_irrefl : ∀ x, lt x x = false.
Hypothesis lt_asym : ∀ x y, lt x y = true → lt y x = false.
Hypothesis ge_trans : ∀ x y z, lt y x = false → lt z y = false → lt z x = false.

Lemma parent_lt (i : nat) : (0 < i → (i - 1) / 2 < i)%nat.
Proof. intros Hi. apply Nat.Div0.div_lt_upper_bound. lia. Qed.

Lemma children_of (i p : nat) :
  ((0 < i ∧ (i - 1) / 2 = p) ↔ (i = 2 * p + 1 ∨ i = 2 * p + 2))%nat.
Proof.
  split.
  - intros [Hi <-]. pose proof (Nat.div_mod_eq (i - 1) 2) as E.
    pose proof (Nat.mod_upper_bound (i - 1) 2). lia.
  - intros [-> | ->].
    + split; [lia|]. replace (2 * p + 1 - 1)%nat with (p * 2)%nat by lia.
      by rewrite Nat.div_mul.
    + split; [lia|]. replace (2 * p + 2 - 1)%nat with (1 + p * 2)%nat by lia.
      rewrite Nat.div_add by lia. reflexivity.
Qed.

(** Writing [a] over [b] at [j] and keeping [b] gives the list with [a]. *)
Lemma insert_cons_perm (l : list A) (j : nat) (a b : A) :
  l !! j = Some b → b :: <[j := a]> l ≡ₚ a :: l.
Proof.
  revert j. induction l as [|c l IH]; intros [|j] Hj; simplify_eq/=.
  - apply perm_swap.
  - rewrite perm_swap, (IH j Hj). apply perm_swap.
Qed.

Lemma swap_perm (l : list A) (i j : nat) (a b : A) :
  l !! i = Some a → l !! j = Some b → <[i := b]> (<[j := a]> l) ≡ₚ l.
Proof.
  intros Hi Hj. destruct (decide (i = j)) as [->|Hne].
  - simplify_eq. rewrite list_insert_insert_eq. by rewrite list_insert_id.
  - apply (Permutation_cons_inv (a := a)).
    rewrite (insert_cons_perm (<[j := a]> l) i b a)
      by (by rewrite list_lookup_insert_ne).
    by apply insert_cons_perm.
Qed.

Lemma lookup_total_Some (l : list A) (i : nat) :
  (i < length l)%nat → l !! i = Some (l !!! i).
Proof. intros Hi. by apply list_lookup_lookup_total_lt. Qed.

(** *** _siftdown *)

Lemma siftdown_loop_length fuel (heap : list A) x startpos pos :
  length (heapq.siftdown_loop lt fuel heap x startpos pos) = length heap.
Proof.
  revert heap pos. induction fuel as [|fuel IH]; intros heap pos; cbn [heapq.siftdown_loop].
  - by rewrite length_insert.
  - repeat case_match; rewrite ?IH, ?length_insert; done.
Qed.

Lemma siftdown_loop_fuel fuel1 fuel2 (heap : list A) x startpos pos :
  (pos ≤ fuel1)%nat → (pos ≤ fuel2)%nat →
  heapq.siftdown_loop lt fuel1 heap x startpos pos
    = heapq.siftdown_loop lt fuel2 heap x startpos pos.
Proof.
  revert fuel2 heap pos. induction fuel1 as [|fuel1 IH];
    intros [|fuel2] heap pos H1 H2; cbn [heapq.siftdown_loop]; try done.
  - case_bool_decide; [lia|done].
  - case_bool_decide; [lia|done].
  - case_bool_decide as Hlt; [|done].
    destruct (lt x _); [|done].
    pose proof (parent_lt pos ltac:(lia)). apply IH; lia.
Qed.

Lemma siftdown_loop_perm fuel (heap : list A) x startpos pos :
  (pos < length heap)%nat →
  heapq.siftdown_loop lt fuel heap x startpos pos ≡ₚ <[pos := x]> heap.
Proof.
  revert heap pos. induction fuel as [|fuel IH]; intros heap pos Hpos; cbn [heapq.siftdown_loop]; [done|].
  case_bool_decide as Hlt; [|done].
  destruct (lt x _) eqn:Hx; [|done].
  assert (0 < pos)%nat as Hpos0 by lia.
  pose proof (parent_lt pos Hpos0) as Hp.
  rewrite IH by (rewrite length_insert; lia).
  set (v := <[pos := x]> heap).
  replace (<[pos := heap !!! ((pos - 1) / 2)%nat]> heap)
    with (<[pos := heap !!! ((pos - 1) / 2)%nat]> v)
    by (unfold v; by rewrite list_insert_insert_eq).
  apply swap_perm.
  - unfold v. rewrite list_lookup_insert_ne by lia. apply lookup_total_Some. lia.
  - unfold v. by rewrite list_lookup_insert_eq.
Qed.

Lemma hole_filled (heap : list A) pos x :
  (pos < length heap)%nat → heapq.hole_inv lt heap pos x →
  (0 < pos → ∃ p, heap !! ((pos - 1) / 2)%nat = Some p ∧ lt x p = false)%nat →
  heapq.heap_inv lt (<[pos := x]> heap).
Proof.
  intros Hpos [Ho Hg Hb] Hup i c p Hi Hc Hp.
  destruct (decide (i = pos)) as [->|Hne].
  - rewrite list_lookup_insert_eq in Hc by done. simplify_eq.
    pose proof (parent_lt pos Hi).
    rewrite list_lookup_insert_ne in Hp by lia.
    destruct (Hup Hi) as (p' & Hp' & Hle). by simplify_eq.
  - rewrite list_lookup_insert_ne in Hc by done.
    destruct (decide (((i - 1) / 2)%nat = pos)) as [Hpar|Hpar].
    + rewrite Hpar, list_lookup_insert_eq in Hp by done. simplify_eq. eauto.
    + rewrite list_lookup_insert_ne in Hp by done. eauto.
Qed.

Lemma siftdown_loop_heap fuel (heap : list A) x pos :
  (pos ≤ fuel)%nat → (pos < length heap)%nat → heapq.hole_inv lt heap pos x →
  heapq.heap_inv lt (heapq.siftdown_loop lt fuel heap x 0 pos).
Proof.
  revert heap pos.
  induction fuel as [|fuel IH]; intros heap pos Hfuel Hpos Hinv; cbn [heapq.siftdown_loop].
  { apply hole_filled; [done..|lia]. }
  case_bool_decide as Hlt; [|apply hole_filled; [done..|lia]].
  pose proof (parent_lt pos Hlt) as Hp.
  set (pp := ((pos - 1) / 2)%nat) in *.
  assert (heap !! pp = Some (heap !!! pp)) as Hpp by (apply lookup_total_Some; lia).
  destruct (lt x (heap !!! pp)) eqn:Hx.
  2:{ apply hole_filled; [done..|]. eauto. }
  destruct Hinv as [Ho Hg Hb].
  apply IH; [lia|rewrite length_insert; lia|].
  split.
  - intros i c p Hi Hne Hpar Hc Hq.
    assert (i ≠ pos) by (intros ->; by apply Hpar).
    rewrite list_lookup_insert_ne in Hc by done.
    destruct (decide (((i - 1) / 2)%nat = pos)) as [Hipos|Hipos].
    + rewrite Hipos, list_lookup_insert_eq in Hq by done. simplify_eq.
      by apply (Hg i).
    + rewrite list_lookup_insert_ne in Hq by done. by apply (Ho i).
  - intros i c gp Hi Hpar Hpp0 Hc Hgp.
    pose proof (parent_lt pp Hpp0).
    rewrite list_lookup_insert_ne in Hgp by lia.
    assert (lt (heap !!! pp) gp = false) as Hle
      by (apply (Ho pp); [done|lia|lia|done..]).
    destruct (decide (i = pos)) as [->|Hne].
    + rewrite list_lookup_insert_eq in Hc by done. by simplify_eq.
    + rewrite list_lookup_insert_ne in Hc by done.
      eapply ge_trans; [exact Hle|]. apply (Ho i); [done|done|lia|done|by rewrite Hpar].
  - intros i c Hi Hpar Hc.
    destruct (decide (i = pos)) as [->|Hne].
    + rewrite list_lookup_insert_eq in Hc by done. simplify_eq.
      by apply lt_asym.
    + rewrite list_lookup_insert_ne in Hc by done.
      eapply ge_trans; [apply lt_asym, Hx|].
      apply (Ho i); [done|done|lia|done|by rewrite Hpar].
Qed.

Lemma heappush_perm (heap : list A) (x : A) :
  heapq.heappush lt heap x ≡ₚ x :: heap.
Proof.
  unfold heapq.heappush, heapq.siftdown.
  rewrite siftdown_loop_perm by (rewrite length_app; simpl; lia).
  rewrite list_lookup_total_middle by done.
  rewrite list_insert_id by (by apply list_lookup_middle).
  by rewrite Permutation_app_comm.
Qed.

Lemma heappush_heap (heap : list A) (x : A) :
  heapq.heap_inv lt heap → heapq.heap_inv lt (heapq.heappush lt heap x).
Proof.
  intros Hheap. unfold heapq.heappush, heapq.siftdown.
  apply siftdown_loop_heap; [done|rewrite length_app; simpl; lia|].
  split.
  - intros i c p Hi Hne Hpar Hc Hp.
    assert (i < length heap)%nat.
    { apply lookup_lt_Some in Hc. rewrite length_app in Hc. simpl in Hc. lia. }
    pose proof (parent_lt i Hi).
    rewrite lookup_app_l in Hc, Hp by lia. eauto.
  - intros i c gp Hi Hpar _ Hc _.
    apply lookup_lt_Some in Hc. rewrite length_app in Hc. simpl in Hc.
    pose proof (proj1 (children_of i _) (conj Hi Hpar)). lia.
  - intros i c Hi Hpar Hc.
    apply lookup_lt_Some in Hc. rewrite length_app in Hc. simpl in Hc.
    pose proof (proj1 (children_of i _) (conj Hi Hpar)). lia.
Qed.

(** *** _siftup *)

Lemma siftup_loop_spec fuel (heap : list A) pos :
  (length heap - pos ≤ fuel)%nat → (pos < length heap)%nat → heapq.gap_inv lt heap pos →
  ∃ heap' pos',
    heapq.siftup_loop lt fuel heap pos = (heap', pos') ∧
    length heap' = length heap ∧ (pos' < length heap)%nat ∧
    (length heap ≤ 2 * pos' + 1)%nat ∧ heapq.gap_inv lt heap' pos' ∧
    ∀ x, <[pos' := x]> heap' ≡ₚ <[pos := x]> heap.
Proof.
  revert heap pos.
  induction fuel as [|fuel IH]; intros heap pos Hfuel Hpos Hinv; [lia|].
  cbn [heapq.siftup_loop].
  case_bool_decide as Hchild.
  2:{ exists heap, pos. repeat split; try done; try lia; apply Hinv. }
  set (left := (2 * pos + 1)%nat) in *.
  set (c := if _ && _ then _ else _).
  assert ((c = left ∨ c = (left + 1)%nat) ∧ (c < length heap)%nat ∧
          ∀ i y, (i = left ∨ i = (left + 1)%nat) → heap !! i = Some y →
                 lt y (heap !!! c) = false) as (Hc & Hclt & Hmin).
  { unfold c. case_bool_decide as Hright; simpl.
    - destruct (lt (heap !!! left) (heap !!! (left + 1)%nat)) eqn:Hlr; simpl.
      + split; [by left|]. split; [done|]. intros i y [->| ->] Hy.
        * apply list_lookup_total_correct in Hy. subst y. apply lt_irrefl.
        * apply list_lookup_total_correct in Hy. subst y. by apply lt_asym.
      + split; [by right|]. split; [done|]. intros i y [->| ->] Hy.
        * apply list_lookup_total_correct in Hy. by subst y.
        * apply list_lookup_total_correct in Hy. subst y. apply lt_irrefl.
    - split; [by left|]. split; [done|]. intros i y [->| ->] Hy.
      + apply list_lookup_total_correct in Hy. subst y. apply lt_irrefl.
      + apply lookup_lt_Some in Hy. lia. }
  clearbody c.
  assert (heap !! c = Some (heap !!! c)) as Hcc by (by apply lookup_total_Some).
  destruct (IH (<[pos := heap !!! c]> heap) c) as (heap' & pos' & -> & Hlen & Hlt & Hleaf & Hgap & Hperm).
  { rewrite length_insert. lia. }
  { by rewrite length_insert. }
  { destruct Hinv as [Ho Hg]. split.
    - intros i y p Hi Hne Hpar Hy Hp.
      destruct (decide (i = pos)) as [->|Hipos].
      + rewrite list_lookup_insert_eq in Hy by done. simplify_eq.
        pose proof (parent_lt pos Hi).
        rewrite list_lookup_insert_ne in Hp by lia.
        apply (Hg c); [lia| |done..].
        apply (children_of c pos). unfold left in Hc. lia.
      + rewrite list_lookup_insert_ne in Hy by done.
        destruct (decide (((i - 1) / 2)%nat = pos)) as [Hipar|Hipar].
        * rewrite Hipar, list_lookup_insert_eq in Hp by done. injection Hp as <-.
          apply (Hmin i); [|done].
          pose proof (proj1 (children_of i pos) (conj Hi Hipar)).
          unfold left. lia.
        * rewrite list_lookup_insert_ne in Hp by done. eauto.
    - intros i y gp Hi Hpar Hc0 Hy Hgp.
      assert (((c - 1) / 2)%nat = pos) as Hcpar.
      { apply (children_of c pos). unfold left in Hc. lia. }
      rewrite Hcpar, list_lookup_insert_eq in Hgp by done. injection Hgp as <-.
      pose proof (proj1 (children_of i c) (conj Hi Hpar)).
      rewrite list_lookup_insert_ne in Hy by (unfold left in Hc; lia).
      apply (Ho i); [done|unfold left in Hc; lia|unfold left in Hc; lia|done|].
      by rewrite Hpar. }
  rewrite length_insert in *.
  exists heap', pos'. split_and!; [done..|].
  intros x. rewrite Hperm.
  set (v := <[pos := x]> heap).
  replace (<[pos := heap !!! c]> heap) with (<[pos := heap !!! c]> v)
    by (unfold v; by rewrite list_insert_insert_eq).
  apply swap_perm.
  - unfold v. rewrite list_lookup_insert_ne by (unfold left in Hc; lia). done.
  - unfold v. by rewrite list_lookup_insert_eq.
Qed.

Lemma siftup_loop_fuel fuel1 fuel2 (heap : list A) pos :
  (length heap - pos ≤ fuel1)%nat → (length heap - pos ≤ fuel2)%nat →
  heapq.siftup_loop lt fuel1 heap pos = heapq.siftup_loop lt fuel2 heap pos.
Proof.
  revert fuel2 heap pos. induction fuel1 as [|fuel1 IH];
    intros [|fuel2] heap pos H1 H2; cbn [heapq.siftup_loop]; try done.
  - case_bool_decide; [lia|done].
  - case_bool_decide; [lia|done].
  - case_bool_decide as Hlt; [|done].
    apply IH; rewrite length_insert; case_match; lia.
Qed.

Lemma siftup_loop_length fuel (heap : list A) pos :
  length (heapq.siftup_loop lt fuel heap pos).1 = length heap.
Proof.
  revert heap pos. induction fuel as [|fuel IH]; intros heap pos; [done|].
  cbn [heapq.siftup_loop]. case_bool_decide; [|done].
  by rewrite IH, length_insert.
Qed.

Lemma siftup_length (heap : list A) pos :
  length (heapq.siftup lt heap pos) = length heap.
Proof.
  unfold heapq.siftup.
  pose proof (siftup_loop_length (length heap) heap pos) as Hlen.
  destruct (heapq.siftup_loop _ _ _ _) as [heap' pos']. simpl in Hlen.
  unfold heapq.siftdown. by rewrite siftdown_loop_length, length_insert.
Qed.

Lemma siftup_root (heap : list A) :
  (0 < length heap)%nat → heapq.gap_inv lt heap 0 →
  heapq.heap_inv lt (heapq.siftup lt heap 0) ∧ heapq.siftup lt heap 0 ≡ₚ heap.
Proof.
  intros Hlen Hgap. unfold heapq.siftup.
  destruct (siftup_loop_spec (length heap) heap 0)
    as (heap' & pos' & -> & Hlen' & Hpos' & Hleaf & Hgap' & Hperm); [lia|done|done|].
  unfold heapq.siftdown.
  rewrite list_lookup_total_insert_eq by lia.
  split.
  - apply siftdown_loop_heap; [done|rewrite length_insert; lia|].
    destruct Hgap' as [Ho Hg]. split.
    + intros i c p Hi Hne Hpar Hc Hp.
      rewrite list_lookup_insert_ne in Hc, Hp by done. eauto.
    + intros i c gp Hi Hpar _ Hc _.
      apply lookup_lt_Some in Hc. rewrite length_insert in Hc.
      pose proof (proj1 (children_of i _) (conj Hi Hpar)). lia.
    + intros i c Hi Hpar Hc.
      apply lookup_lt_Some in Hc. rewrite length_insert in Hc.
      pose proof (proj1 (children_of i _) (conj Hi Hpar)). lia.
  - rewrite siftdown_loop_perm by (rewrite length_insert; lia).
    rewrite list_insert_insert_eq, Hperm.
    rewrite list_insert_id; [done|]. by apply lookup_total_Some.
Qed.

(** The root of a heap is a least item. *)
Lemma heap_root_least (heap : list A) (m : A) :
  heapq.heap_inv lt heap → heap !! 0%nat = Some m →
  ∀ x, x ∈ heap → lt x m = false.
Proof.
  intros Hheap Hm x [i Hx]%list_elem_of_lookup. revert x Hx.
  induction (lt_wf i) as [i _ IH]. intros x Hx.
  destruct (decide (i = 0%nat)) as [->|Hne].
  - simplify_eq. apply lt_irrefl.
  - pose proof (parent_lt i ltac:(lia)) as Hp.
    destruct (lookup_lt_is_Some_2 heap ((i - 1) / 2)%nat) as [p Hpar].
    { apply lookup_lt_Some in Hx. lia. }
    eapply ge_trans; [apply (IH _ Hp p Hpar)|].
    apply (Hheap i); [lia|done..].
Qed.

Lemma heappop_None (heap : list A) :
  heapq.heappop lt heap = None ↔ heap = [].
Proof.
  unfold heapq.heappop. split.
  - destruct (last heap) eqn:Hlast.
    + by destruct (removelast heap).
    + intros _. by apply last_None.
  - by intros ->.
Qed.

Lemma heappop_length (heap heap' : list A) (a : A) :
  heapq.heappop lt heap = Some (a, heap') → length heap = S (length heap').
Proof.
  unfold heapq.heappop. destruct (last heap) as [lastelt|] eqn:Hlast; [|done].
  apply last_Some in Hlast as [front ->].
  rewrite removelast_last, length_app. simpl.
  destruct front as [|r front]; intros ?; simplify_eq/=; [done|].
  rewrite siftup_length. simpl. lia.
Qed.

Lemma heappop_spec (heap heap' : list A) (a : A) :
  heapq.heap_inv lt heap → heapq.heappop lt heap = Some (a, heap') →
  a :: heap' ≡ₚ heap ∧ heapq.heap_inv lt heap' ∧ ∀ b, b ∈ heap' → lt b a = false.
Proof.
  intros Hheap Hpop.
  assert (heap !! 0%nat = Some a ∧ a :: heap' ≡ₚ heap ∧ heapq.heap_inv lt heap')
    as (Hroot & Hperm & Hheap').
  { revert Hpop. unfold heapq.heappop.
    destruct (last heap) as [lastelt|] eqn:Hlast; [|done].
    apply last_Some in Hlast as [front ->]. rewrite removelast_last.
    destruct front as [|r front]; intros ?; simplify_eq/=.
    { split_and!; [done..|]. intros i x y _ Hx. by rewrite lookup_nil in Hx. }
    destruct (siftup_root (lastelt :: front)) as [Hinv Hperm]; [simpl; lia| |].
    { split; [|intros; lia].
      intros i c p Hi Hne Hpar Hc Hp.
      destruct i as [|i]; [lia|].
      destruct ((S i - 1) / 2)%nat as [|j] eqn:Hj; [done|].
      apply (Hheap (S i)); [lia| |].
      - simpl in *. apply lookup_app_l_Some. done.
      - rewrite Hj. simpl in *. by apply lookup_app_l_Some. }
    split_and!; [done| |done].
    rewrite Hperm. f_equiv. apply Permutation_cons_append. }
  split_and!; [done..|].
  intros b Hb. apply (heap_root_least heap); [done..|].
  rewrite <- Hperm. by right.
Qed.
End heapq_facts.

(** ** The order of the entries *)

Lemma entry_lt_true (e1 e2 : Entry) : entry_lt e1 e2 = true ↔ key_lt e1 e2.
Proof.
  unfold entry_lt, key_lt.
  repeat case_bool_decide; split; intros; try done; try lia.
Qed.

Lemma entry_lt_false (e1 e2 : Entry) : entry_lt e1 e2 = false ↔ key_le e2 e1.
Proof.
  unfold entry_lt, key_le.
  repeat case_bool_decide; split; intros; try done; try lia.
Qed.

Lemma ref_lt_irrefl objs x : PriorityQueue.ref_lt objs x x = false.
Proof. apply entry_lt_false. unfold key_le. lia. Qed.

Lemma ref_lt_asym objs x y :
  PriorityQueue.ref_lt objs x y = true → PriorityQueue.ref_lt objs y x = false.
Proof.
  unfold PriorityQueue.ref_lt. rewrite entry_lt_true, entry_lt_false.
  unfold key_lt, key_le. lia.
Qed.

Lemma ref_ge_trans objs x y z :
  PriorityQueue.ref_lt objs y x = false → PriorityQueue.ref_lt objs z y = false →
  PriorityQueue.ref_lt objs z x = false.
Proof.
  unfold PriorityQueue.ref_lt. rewrite !entry_lt_false.
  unfold key_le. lia.
Qed.

Lemma heap_inv_ext {A} (lt1 lt2 : A → A → bool) (heap : list A) :
  (∀ x y, x ∈ heap → y ∈ heap → lt1 x y = lt2 x y) →
  heapq.heap_inv lt1 heap → heapq.heap_inv lt2 heap.
Proof.
  intros Hext Hheap i x y Hi Hx Hy.
  rewrite <- Hext; [by eapply Hheap| |]; by eapply list_elem_of_lookup_2.
Qed.

(** ** The invariant holds *)

Lemma init_wf : wf PriorityQueue.init.
Proof.
  split; simpl; try (intros ? ?%elem_of_nil; done).
  - constructor.
  - intros i x y _ Hx. by rewrite lookup_nil in Hx.
  - intros ? ? ?%elem_of_nil. done.
  - intros k a Hk. by rewrite lookup_empty in Hk.
Qed.

Lemma clear_wf q : wf (PriorityQueue.clear q).2.
Proof.
  split; simpl; try (intros ? ?%elem_of_nil; done).
  - constructor.
  - intros i x y _ Hx. by rewrite lookup_nil in Hx.
  - intros ? ? ?%elem_of_nil. done.
  - intros k a Hk. by rewrite lookup_empty in Hk.
Qed.

Lemma add_wf s p q : wf q → wf (PriorityQueue.add s p q).2.
Proof.
  intros [Haddr Hnd Hheap Hcount Hdist Hfind]. unfold PriorityQueue.add. simpl.
  set (e := mkEntry p _ _). set (a := length (PriorityQueue.objs q)).
  set (objs' := PriorityQueue.objs q ++ [e]).
  assert (∀ b, (b < a)%nat → objs' !!! b = PriorityQueue.objs q !!! b) as Hold.
  { intros b Hb. unfold objs'. by rewrite lookup_total_app_l. }
  assert (objs' !!! a = e) as Hnew.
  { unfold objs', a. by rewrite list_lookup_total_middle. }
  assert (a ∉ PriorityQueue.heap q) as Hfresh.
  { intros Ha%Haddr. unfold a in Ha. lia. }
  pose proof (heappush_perm (PriorityQueue.ref_lt objs') (PriorityQueue.heap q) a) as Hperm.
  assert (∀ b, b ∈ heapq.heappush (PriorityQueue.ref_lt objs') (PriorityQueue.heap q) a ↔
               b = a ∨ b ∈ PriorityQueue.heap q) as Hin.
  { intros b. rewrite Hperm. apply elem_of_cons. }
  split; simpl.
  - intros b [->|Hb]%Hin; unfold objs'; rewrite length_app; simpl.
    + unfold a. lia.
    + apply Haddr in Hb. lia.
  - rewrite Hperm. by constructor.
  - apply heappush_heap; [apply ref_lt_irrefl|apply ref_lt_asym|apply ref_ge_trans|].
    eapply heap_inv_ext; [|exact Hheap].
    intros x y Hx%Haddr Hy%Haddr. unfold PriorityQueue.ref_lt.
    by rewrite !Hold.
  - intros b [->|Hb]%Hin.
    + exists (PriorityQueue.counter q). rewrite Hnew. simpl. split; [done|lia].
    + destruct (Hcount b Hb) as (c & Hc & Hlt). exists c.
      rewrite Hold by (by apply Haddr). split; [done|lia].
  - assert (∀ b, b ∈ PriorityQueue.heap q → order_key (objs' !!! b) ≠ order_key (objs' !!! a)) as Hne.
    { intros b Hb. destruct (Hcount b Hb) as (c & Hc & Hlt).
      rewrite Hold by (by apply Haddr). rewrite Hnew, Hc. simpl. lia. }
    intros b1 b2 [->|Hb1]%Hin [->|Hb2]%Hin Heq; try done.
    + symmetry in Heq. by apply Hne in Heq.
    + by apply Hne in Heq.
    + rewrite !Hold in Heq by (by apply Haddr). by apply Hdist.
  - intros k b Hk. destruct (decide (state_id s = k)) as [<-|Hne].
    + rewrite lookup_insert_eq in Hk. simplify_eq. split; [apply Hin; by left|].
      exists s. by rewrite Hnew.
    + rewrite lookup_insert_ne in Hk by done.
      destruct (Hfind k b Hk) as (Hb & s' & Hs' & Hid).
      split; [apply Hin; by right|]. exists s'.
      by rewrite Hold by (by apply Haddr).
Qed.

Lemma invalidate_keys (objs : list Entry) (a b : nat) :
  priority (alter invalidate a objs !!! b) = priority (objs !!! b) ∧
  order_key (alter invalidate a objs !!! b) = order_key (objs !!! b).
Proof. rewrite list_lookup_total_alter. by case_decide as H; [destruct H as [-> _]|]. Qed.

Lemma invalidate_ref_lt (objs : list Entry) (a x y : nat) :
  PriorityQueue.ref_lt (alter invalidate a objs) x y = PriorityQueue.ref_lt objs x y.
Proof.
  unfold PriorityQueue.ref_lt, entry_lt.
  destruct (invalidate_keys objs a x) as [-> ->].
  by destruct (invalidate_keys objs a y) as [-> ->].
Qed.

Lemma change_priority_tracked s p a q :
  PriorityQueue.entry_finder q !! state_id s = Some a →
  PriorityQueue.change_priority s p q = PriorityQueue.add s p (invalidated s a q).
Proof. intros H. unfold PriorityQueue.change_priority. by rewrite H. Qed.

Lemma change_priority_untracked s p q :
  PriorityQueue.entry_finder q !! state_id s = None →
  PriorityQueue.change_priority s p q = (Raise KeyError, q).
Proof. intros H. unfold PriorityQueue.change_priority. by rewrite H. Qed.

Lemma invalidated_wf s a q :
  wf q → PriorityQueue.entry_finder q !! state_id s = Some a → wf (invalidated s a q).
Proof.
  intros [Haddr Hnd Hheap Hcount Hdist Hfind] Ha. split; simpl.
  - intros b Hb. rewrite length_alter. by apply Haddr.
  - done.
  - eapply heap_inv_ext; [|exact Hheap]. intros x y _ _.
    by rewrite invalidate_ref_lt.
  - intros b Hb. destruct (invalidate_keys (PriorityQueue.objs q) a b) as [_ ->].
    by apply Hcount.
  - intros b1 b2 Hb1 Hb2.
    destruct (invalidate_keys (PriorityQueue.objs q) a b1) as [_ ->].
    destruct (invalidate_keys (PriorityQueue.objs q) a b2) as [_ ->].
    by apply Hdist.
  - intros k b Hk. apply lookup_delete_Some in Hk as [Hne Hk].
    destruct (Hfind k b Hk) as (Hb & s' & Hs' & Hid). split; [done|].
    exists s'. split; [|done].
    rewrite list_lookup_total_alter_ne; [done|].
    intros ->. destruct (Hfind _ _ Ha) as (_ & s'' & Hs'' & Hid'). congruence.
Qed.

Lemma change_priority_wf s p q : wf q → wf (PriorityQueue.change_priority s p q).2.
Proof.
  intros Hwf. destruct (PriorityQueue.entry_finder q !! state_id s) as [a|] eqn:Ha.
  - rewrite (change_priority_tracked _ _ _ _ Ha). by apply add_wf, invalidated_wf.
  - by rewrite (change_priority_untracked _ _ _ Ha).
Qed.

(** *** The loop of [pop] *)

Lemma pop_loop_spec fuel objs heap :
  (length heap < fuel)%nat → heapq.heap_inv (PriorityQueue.ref_lt objs) heap →
  match PriorityQueue.pop_loop fuel objs heap with
  | (Return (a, s), heap') =>
      ∃ dead, heap ≡ₚ dead ++ a :: heap' ∧
        element (objs !!! a) = Some s ∧
        heapq.heap_inv (PriorityQueue.ref_lt objs) heap' ∧
        (∀ d, d ∈ dead → element (objs !!! d) = None ∧ PriorityQueue.ref_lt objs a d = false) ∧
        (∀ b, b ∈ heap' → PriorityQueue.ref_lt objs b a = false)
  | (Raise e, heap') =>
      e = IndexError ∧ heap' = [] ∧ ∀ a, a ∈ heap → element (objs !!! a) = None
  end.
Proof.
  revert heap. induction fuel as [|fuel IH]; intros heap Hfuel Hheap; [lia|].
  cbn [PriorityQueue.pop_loop].
  destruct (heapq.heappop _ heap) as [[a heap1]|] eqn:Hpop.
  2:{ apply heappop_None in Hpop as ->. split_and!; [done..|].
      intros ? ?%elem_of_nil. done. }
  pose proof (heappop_length _ _ _ _ Hpop) as Hlen.
  apply heappop_spec in Hpop as (Hperm & Hheap1 & Hleast);
    [|apply ref_lt_irrefl|apply ref_lt_asym|apply ref_ge_trans|done].
  destruct (element (objs !!! a)) as [s|] eqn:Hs.
  { exists []. simpl. split_and!; try done. intros ? ?%elem_of_nil. done. }
  specialize (IH heap1 ltac:(lia) Hheap1).
  destruct (PriorityQueue.pop_loop fuel objs heap1) as [[[a2 s]|e] heap2].
  - destruct IH as (dead & Hperm2 & Hs2 & Hheap2 & Hdead & Hrest).
    exists (a :: dead). split_and!; try done.
    + by rewrite <- Hperm, Hperm2.
    + intros d [->|Hd]%elem_of_cons; [|by apply Hdead].
      split; [done|]. apply Hleast. rewrite Hperm2.
      apply elem_of_app. right. by left.
  - destruct IH as (-> & -> & Hall). split_and!; try done.
    intros b Hb. rewrite <- Hperm in Hb.
    apply elem_of_cons in Hb as [->|Hb]; [done|by apply Hall].
Qed.

Lemma pop_loop_fuel fuel objs heap :
  (length heap < fuel)%nat →
  (PriorityQueue.pop_loop fuel objs heap).1 ≠ Raise OutOfFuel.
Proof.
  revert heap. induction fuel as [|fuel IH]; intros heap Hfuel; [lia|].
  cbn [PriorityQueue.pop_loop].
  destruct (heapq.heappop _ heap) as [[a heap1]|] eqn:Hpop; [|done].
  apply heappop_length in Hpop.
  destruct (element (objs !!! a)); [done|]. apply IH. lia.
Qed.

(** With more fuel the loop does the same. *)
Lemma pop_loop_more_fuel fuel1 fuel2 objs heap :
  (length heap < fuel1)%nat → (length heap < fuel2)%nat →
  PriorityQueue.pop_loop fuel1 objs heap = PriorityQueue.pop_loop fuel2 objs heap.
Proof.
  revert fuel2 heap. induction fuel1 as [|fuel1 IH];
    intros [|fuel2] heap H1 H2; try lia.
  cbn [PriorityQueue.pop_loop].
  destruct (heapq.heappop _ heap) as [[a heap1]|] eqn:Hpop; [|done].
  apply heappop_length in Hpop.
  destruct (element (objs !!! a)); [done|]. apply IH; lia.
Qed.

Lemma distinct_key_lt q a b :
  wf q → a ∈ PriorityQueue.heap q → b ∈ PriorityQueue.heap q → a ≠ b →
  PriorityQueue.ref_lt (PriorityQueue.objs q) b a = false →
  key_lt (PriorityQueue.objs q !!! a) (PriorityQueue.objs q !!! b).
Proof.
  intros Hwf Ha Hb Hne Hle. apply entry_lt_false in Hle.
  assert (order_key (PriorityQueue.objs q !!! a) ≠ order_key (PriorityQueue.objs q !!! b))
    by (intros Heq; by apply (wf_distinct q Hwf) in Heq).
  unfold key_le, key_lt in *. lia.
Qed.

(** One [pop] of a queue: either no entry of the heap is live, the heap is
    emptied and IndexError raised; or the live entry [a] with the least key
    is taken out together with the invalidated entries [dead] before it, and
    the element of [a] is returned if the index tracks it, KeyError raised if
    not. *)
Lemma pop_cases q :
  wf q →
  ((∀ a, a ∈ PriorityQueue.heap q → element (PriorityQueue.objs q !!! a) = None) ∧
   PriorityQueue.pop q =
     (Raise IndexError,
      PriorityQueue.mk (PriorityQueue.objs q) [] (PriorityQueue.entry_finder q)
                       (PriorityQueue.counter q)))
  ∨ ∃ a s dead heap',
      PriorityQueue.heap q ≡ₚ dead ++ a :: heap' ∧
      element (PriorityQueue.objs q !!! a) = Some s ∧
      heapq.heap_inv (PriorityQueue.ref_lt (PriorityQueue.objs q)) heap' ∧
      (∀ d, d ∈ dead → element (PriorityQueue.objs q !!! d) = None ∧
                       key_lt (PriorityQueue.objs q !!! d) (PriorityQueue.objs q !!! a)) ∧
      (∀ b, b ∈ heap' → key_lt (PriorityQueue.objs q !!! a) (PriorityQueue.objs q !!! b)) ∧
      PriorityQueue.pop q =
        match PriorityQueue.entry_finder q !! state_id s with
        | None =>
            (Raise KeyError,
             PriorityQueue.mk (PriorityQueue.objs q) heap' (PriorityQueue.entry_finder q)
                              (PriorityQueue.counter q))
        | Some _ =>
            (Return s,
             PriorityQueue.mk (PriorityQueue.objs q) heap'
                              (delete (state_id s) (PriorityQueue.entry_finder q))
                              (PriorityQueue.counter q))
        end.
Proof.
  intros Hwf. unfold PriorityQueue.pop.
  pose proof (pop_loop_spec (S (length (PriorityQueue.heap q))) (PriorityQueue.objs q)
                (PriorityQueue.heap q) ltac:(lia) (wf_heap q Hwf)) as Hspec.
  destruct (PriorityQueue.pop_loop _ _ _) as [[[a s]|e] heap'].
  - right. destruct Hspec as (dead & Hperm & Hs & Hheap' & Hdead & Hrest).
    exists a, s, dead, heap'.
    pose proof (wf_nodup q Hwf) as Hnd. rewrite Hperm in Hnd.
    apply NoDup_app in Hnd as (_ & Hsep & [Hahd _]%NoDup_cons).
    assert (a ∈ PriorityQueue.heap q) as Ha.
    { rewrite Hperm. apply elem_of_app. right. by left. }
    split_and!; try done.
    + intros d Hd. destruct (Hdead d Hd) as [Hnone Hle]. split; [done|].
      apply distinct_key_lt; try done.
      * rewrite Hperm. apply elem_of_app. by left.
      * intros ->. apply (Hsep a Hd). by left.
    + intros b Hb. apply distinct_key_lt; try done.
      * rewrite Hperm. apply elem_of_app. right. by right.
      * by intros ->.
      * by apply Hrest.
  - left. by destruct Hspec as (-> & -> & Hall).
Qed.

Lemma pop_wf q : wf q → wf (PriorityQueue.pop q).2.
Proof.
  intros Hwf. destruct (pop_cases q Hwf) as [[Hall ->]|(a & s & dead & heap' & Hperm & Hs & Hheap' & Hdead & Hrest & ->)].
  { destruct Hwf as [Haddr Hnd Hheap Hcount Hdist Hfind]. split; simpl;
      try (intros ? ?%elem_of_nil; done).
    - constructor.
    - intros i x y _ Hx. by rewrite lookup_nil in Hx.
    - intros ? ? ?%elem_of_nil. done.
    - intros k a Hk. destruct (Hfind k a Hk) as (Ha & s & Hs & _).
      rewrite (Hall a Ha) in Hs. done. }
  assert (∀ b, b ∈ heap' → b ∈ PriorityQueue.heap q) as Hsub.
  { intros b Hb. rewrite Hperm. apply elem_of_app. right. by right. }
  pose proof (wf_nodup q Hwf) as Hnd. rewrite Hperm in Hnd.
  apply NoDup_app in Hnd as (_ & Hsep & [Hahd Hnd']%NoDup_cons).
  assert (∀ k b, PriorityQueue.entry_finder q !! k = Some b → k ≠ state_id s → b ∈ heap') as Hkeep.
  { intros k b Hk Hne. destruct (wf_finder q Hwf k b Hk) as (Hb & s' & Hs' & Hid).
    rewrite Hperm in Hb. apply elem_of_app in Hb as [Hb|Hb].
    - destruct (Hdead b Hb) as [Hnone _]. congruence.
    - apply elem_of_cons in Hb as [->|Hb]; [congruence|done]. }
  destruct Hwf as [Haddr Hnd Hheap Hcount Hdist Hfind].
  destruct (PriorityQueue.entry_finder q !! state_id s) eqn:Hfs; split; simpl; eauto.
  - intros k b [Hne Hk]%lookup_delete_Some.
    destruct (Hfind k b Hk) as (Hb & s' & Hs' & Hid). split; [|eauto]. eauto.
  - intros k b Hk. destruct (Hfind k b Hk) as (Hb & s' & Hs' & Hid).
    split; [|eauto]. apply (Hkeep k b Hk). intros ->. congruence.
Qed.

Lemma perform_wf o q : wf q → wf (perform o q).2.
Proof.
  intros Hwf. destruct o as [s p|s p| |]; unfold perform, bind, ret.
  - pose proof (add_wf s p q Hwf). by destruct (PriorityQueue.add s p q) as [[] ?].
  - pose proof (change_priority_wf s p q Hwf).
    by destruct (PriorityQueue.change_priority s p q) as [[] ?].
  - pose proof (pop_wf q Hwf). by destruct (PriorityQueue.pop q) as [[] ?].
  - apply clear_wf.
Qed.

Lemma run_wf ops q : wf q → wf (run ops q).
Proof.
  revert q. induction ops as [|o ops IH]; intros q Hwf; simpl; [done|].
  by apply IH, perform_wf.
Qed.

Lemma pop_fuel q : (PriorityQueue.pop q).1 ≠ Raise OutOfFuel.
Proof.
  unfold PriorityQueue.pop.
  pose proof (pop_loop_fuel (S (length (PriorityQueue.heap q))) (PriorityQueue.objs q)
                (PriorityQueue.heap q) ltac:(lia)) as Hfuel.
  destruct (PriorityQueue.pop_loop _ _ _) as [[[a s]|e] heap']; simpl in *.
  - by destruct (PriorityQueue.entry_finder q !! state_id s).
  - intros [= ->]. by apply Hfuel.
Qed.

(** Repeated [pop] reaches an exception of the queue within the fuel of
    [pop_all]. *)
Lemma pop_all_fuel fuel q :
  wf q → (length (PriorityQueue.heap q) < fuel)%nat →
  (pop_repeatedly fuel q).2 ≠ OutOfFuel.
Proof.
  revert q. induction fuel as [|fuel IH]; intros q Hwf Hfuel; [lia|]. simpl.
  pose proof (pop_wf q Hwf) as Hwf'.
  destruct (pop_cases q Hwf)
    as [[_ Hpop]|(a & s & dead & heap' & Hperm & _ & _ & _ & _ & Hpop)];
    rewrite Hpop in *; [done|].
  destruct (PriorityQueue.entry_finder q !! state_id s) eqn:Hs; [|done].
  simpl in *. apply IH; [done|]. simpl.
  apply Permutation_length in Hperm. rewrite length_app in Hperm. simpl in Hperm. lia.
Qed.

(** *** Calls that keep to the contract of [add] *)

Lemma get_priority_None s q :
  PriorityQueue.get_priority s q = None ↔ PriorityQueue.entry_finder q !! state_id s = None.
Proof. unfold PriorityQueue.get_priority. by destruct (_ !! _). Qed.

Lemma init_live_tracked : live_tracked PriorityQueue.init.
Proof. intros a s Ha. simpl in Ha. by apply elem_of_nil in Ha. Qed.

Lemma clear_live_tracked q : live_tracked (PriorityQueue.clear q).2.
Proof. intros a s Ha. simpl in Ha. by apply elem_of_nil in Ha. Qed.

Lemma add_live_tracked s p q :
  wf q → live_tracked q → PriorityQueue.entry_finder q !! state_id s = None →
  live_tracked (PriorityQueue.add s p q).2.
Proof.
  intros Hwf Hlive Hnew a s'. unfold PriorityQueue.add. simpl.
  rewrite heappush_perm, elem_of_cons. intros [->|Ha].
  - rewrite list_lookup_total_middle by done. simpl. intros [= <-].
    apply lookup_insert_eq.
  - rewrite lookup_total_app_l by (by apply (wf_addr q Hwf)). intros Hs'.
    pose proof (Hlive a s' Ha Hs') as Hfind.
    rewrite lookup_insert_ne; [done|]. intros Heq. rewrite <- Heq in Hfind. congruence.
Qed.

Lemma invalidated_live_tracked s a q :
  wf q → live_tracked q → PriorityQueue.entry_finder q !! state_id s = Some a →
  live_tracked (invalidated s a q).
Proof.
  intros Hwf Hlive Ha b s'. unfold invalidated. simpl. intros Hb.
  destruct (wf_finder q Hwf _ _ Ha) as (Hin & _).
  rewrite list_lookup_total_alter. case_decide as Hdec.
  - destruct Hdec as [<- _]. done.
  - intros Hs'. pose proof (Hlive b s' Hb Hs') as Hfind.
    rewrite lookup_delete_ne; [done|]. intros Heq. rewrite <- Heq in Hfind.
    simplify_eq. apply Hdec. split; [done|]. by apply (wf_addr q Hwf).
Qed.

Lemma change_priority_live_tracked s p q :
  wf q → live_tracked q → live_tracked (PriorityQueue.change_priority s p q).2.
Proof.
  intros Hwf Hlive.
  destruct (PriorityQueue.entry_finder q !! state_id s) as [a|] eqn:Ha.
  - rewrite (change_priority_tracked _ _ _ _ Ha).
    apply add_live_tracked.
    + by apply invalidated_wf.
    + by apply invalidated_live_tracked.
    + simpl. apply lookup_delete_eq.
  - by rewrite (change_priority_untracked _ _ _ Ha).
Qed.

(** Under the contract [pop] finds the payload of the least live entry in
    the index, so it returns it. *)
Lemma pop_cases_tracked q :
  wf q → live_tracked q →
  ((∀ a, a ∈ PriorityQueue.heap q → element (PriorityQueue.objs q !!! a) = None) ∧
   PriorityQueue.pop q =
     (Raise IndexError,
      PriorityQueue.mk (PriorityQueue.objs q) [] (PriorityQueue.entry_finder q)
                       (PriorityQueue.counter q)))
  ∨ ∃ a s dead heap',
      PriorityQueue.heap q ≡ₚ dead ++ a :: heap' ∧
      element (PriorityQueue.objs q !!! a) = Some s ∧
      PriorityQueue.entry_finder q !! state_id s = Some a ∧
      (∀ d, d ∈ dead → element (PriorityQueue.objs q !!! d) = None ∧
                       key_lt (PriorityQueue.objs q !!! d) (PriorityQueue.objs q !!! a)) ∧
      (∀ b, b ∈ heap' → key_lt (PriorityQueue.objs q !!! a) (PriorityQueue.objs q !!! b)) ∧
      PriorityQueue.pop q =
        (Return s,
         PriorityQueue.mk (PriorityQueue.objs q) heap'
                          (delete (state_id s) (PriorityQueue.entry_finder q))
                          (PriorityQueue.counter q)).
Proof.
  intros Hwf Hlive.
  destruct (pop_cases q Hwf) as [?|(a & s & dead & heap' & Hperm & Hs & _ & Hdead & Hrest & Hpop)];
    [by left|right].
  assert (PriorityQueue.entry_finder q !! state_id s = Some a) as Hfind.
  { apply Hlive; [|done]. rewrite Hperm. apply elem_of_app. right. by left. }
  rewrite Hfind in Hpop. by exists a, s, dead, heap'.
Qed.

Lemma pop_live_tracked q : wf q → live_tracked q → live_tracked (PriorityQueue.pop q).2.
Proof.
  intros Hwf Hlive.
  destruct (pop_cases_tracked q Hwf Hlive)
    as [[_ ->]|(a & s & dead & heap' & Hperm & Hs & Hfind & _ & _ & ->)]; simpl.
  { intros b s' Hb. simpl in Hb. by apply elem_of_nil in Hb. }
  pose proof (wf_nodup q Hwf) as Hnd. rewrite Hperm in Hnd.
  apply NoDup_app in Hnd as (_ & _ & [Hahd _]%NoDup_cons).
  intros b s' Hb Hs'. simpl in *.
  assert (PriorityQueue.entry_finder q !! state_id s' = Some b) as Hfind'.
  { apply Hlive; [|done]. rewrite Hperm. apply elem_of_app. right. by right. }
  rewrite lookup_delete_ne; [done|]. intros Heq. rewrite Heq in Hfind. congruence.
Qed.

Lemma perform_live_tracked o q :
  wf q → live_tracked q → within_contract o q = true → live_tracked (perform o q).2.
Proof.
  intros Hwf Hlive Hc. destruct o as [s p|s p| |]; unfold perform, bind, ret.
  - simpl in Hc. apply bool_decide_eq_true, get_priority_None in Hc.
    pose proof (add_live_tracked s p q Hwf Hlive Hc).
    by destruct (PriorityQueue.add s p q) as [[] ?].
  - pose proof (change_priority_live_tracked s p q Hwf Hlive).
    by destruct (PriorityQueue.change_priority s p q) as [[] ?].
  - pose proof (pop_live_tracked q Hwf Hlive). by destruct (PriorityQueue.pop q) as [[] ?].
  - apply clear_live_tracked.
Qed.

Lemma run_live_tracked ops q :
  wf q → live_tracked q → contract_kept ops q = true → live_tracked (run ops q).
Proof.
  revert q. induction ops as [|o ops IH]; intros q Hwf Hlive Hc; simpl in *; [done|].
  apply andb_true_iff in Hc as [Ho Hc].
  apply IH; [by apply perform_wf|by apply perform_live_tracked|done].
Qed.

(** *** Repeated [pop] under the contract *)

Lemma pops_sorted fuel q lo :
  wf q → live_tracked q →
  (∀ b, b ∈ PriorityQueue.heap q → lo ≤ priority (PriorityQueue.objs q !!! b)) →
  ∃ ps, map fst (pop_repeatedly fuel q).1 = map Some ps ∧
        Sorted Z.le ps ∧ Forall (λ p, lo ≤ p) ps.
Proof.
  revert q lo. induction fuel as [|fuel IH]; intros q lo Hwf Hlive Hlo; simpl.
  { exists []. by repeat constructor. }
  pose proof (pop_wf q Hwf) as Hwf'. pose proof (pop_live_tracked q Hwf Hlive) as Hlive'.
  destruct (pop_cases_tracked q Hwf Hlive)
    as [[_ Hpop]|(a & s & dead & heap' & Hperm & Hs & Hfind & _ & Hrest & Hpop)];
    rewrite Hpop in *.
  { exists []. by repeat constructor. }
  simpl in Hwf', Hlive'.
  destruct (IH _ (priority (PriorityQueue.objs q !!! a)) Hwf' Hlive')
    as (ps & Hps & Hsorted & Hall).
  { simpl. intros b Hb%Hrest. unfold key_lt in Hb. lia. }
  exists (priority (PriorityQueue.objs q !!! a) :: ps). split_and!.
  - simpl. rewrite Hps. unfold PriorityQueue.get_priority. by rewrite Hfind.
  - constructor; [done|]. destruct Hall; by constructor.
  - constructor.
    + apply Hlo. rewrite Hperm. apply elem_of_app. right. by left.
    + eapply Forall_impl; [exact Hall|]. simpl. intros p Hp.
      assert (lo ≤ priority (PriorityQueue.objs q !!! a)); [|lia].
      apply Hlo. rewrite Hperm. apply elem_of_app. right. by left.
Qed.

(** Every live entry is reached. *)
Lemma pops_complete fuel q a s :
  wf q → live_tracked q → (length (PriorityQueue.heap q) < fuel)%nat →
  a ∈ PriorityQueue.heap q → element (PriorityQueue.objs q !!! a) = Some s →
  state_id s ∈ map (λ r, state_id r.2) (pop_repeatedly fuel q).1.
Proof.
  revert q. induction fuel as [|fuel IH]; intros q Hwf Hlive Hfuel Ha Hs; [lia|]. simpl.
  pose proof (pop_wf q Hwf) as Hwf'. pose proof (pop_live_tracked q Hwf Hlive) as Hlive'.
  destruct (pop_cases_tracked q Hwf Hlive)
    as [[Hnone _]|(a0 & s0 & dead & heap' & Hperm & Hs0 & Hfind & Hdead & Hrest & Hpop)].
  { rewrite (Hnone a Ha) in Hs. done. }
  rewrite Hpop in *. simpl in *.
  pose proof Ha as Ha'. rewrite Hperm in Ha'.
  apply elem_of_app in Ha' as [Hd|[->|Ha']%elem_of_cons].
  - destruct (Hdead a Hd) as [Hnone _]. congruence.
  - simplify_eq. by left.
  - right. apply (IH _ Hwf' Hlive'); simpl; [|done..].
    apply Permutation_length in Hperm. rewrite length_app in Hperm. simpl in Hperm.
    lia.
Qed.

(** Of two live entries the one with the smaller key is returned first. *)
Lemma pops_order fuel q ax ay sx sy :
  wf q → live_tracked q → (length (PriorityQueue.heap q) < fuel)%nat →
  ax ∈ PriorityQueue.heap q → element (PriorityQueue.objs q !!! ax) = Some sx →
  ay ∈ PriorityQueue.heap q → element (PriorityQueue.objs q !!! ay) = Some sy →
  key_lt (PriorityQueue.objs q !!! ay) (PriorityQueue.objs q !!! ax) →
  ∃ l1 l2 l3,
    map (λ r, state_id r.2) (pop_repeatedly fuel q).1
      = l1 ++ state_id sy :: l2 ++ state_id sx :: l3 ∧
    state_id sx ∉ l1.
Proof.
  revert q. induction fuel as [|fuel IH];
    intros q Hwf Hlive Hfuel Hax Hsx Hay Hsy Hlt; [lia|]. simpl.
  pose proof (pop_wf q Hwf) as Hwf'. pose proof (pop_live_tracked q Hwf Hlive) as Hlive'.
  destruct (pop_cases_tracked q Hwf Hlive)
    as [[Hnone _]|(a0 & s0 & dead & heap' & Hperm & Hs0 & Hfind & Hdead & Hrest & Hpop)].
  { rewrite (Hnone ax Hax) in Hsx. done. }
  rewrite Hpop in *. simpl in *.
  assert (length heap' < fuel)%nat as Hfuel'.
  { apply Permutation_length in Hperm. rewrite length_app in Hperm. simpl in Hperm. lia. }
  assert (∀ b s, b ∈ PriorityQueue.heap q → element (PriorityQueue.objs q !!! b) = Some s →
                 b = a0 ∨ b ∈ heap') as Hsplit.
  { intros b s Hb Hsb. rewrite Hperm in Hb.
    apply elem_of_app in Hb as [Hd|[->|Hb]%elem_of_cons]; [|by left|by right].
    destruct (Hdead b Hd) as [Hnone _]. congruence. }
  assert (ax ∈ heap') as Hax'.
  { destruct (Hsplit ax sx Hax Hsx) as [->|?]; [|done].
    destruct (Hsplit ay sy Hay Hsy) as [->|Hy%Hrest]; unfold key_lt in *; lia. }
  destruct (Hsplit ay sy Hay Hsy) as [->|Hay'].
  - simplify_eq.
    pose proof (pops_complete fuel _ ax sx Hwf' Hlive' Hfuel' Hax' Hsx) as Hin.
    apply list_elem_of_split in Hin as (l2 & l3 & Hin).
    exists [], l2, l3. simpl in *. rewrite Hin. split; [done|apply not_elem_of_nil].
  - destruct (IH _ Hwf' Hlive' Hfuel' Hax' Hsx Hay' Hsy Hlt) as (l1 & l2 & l3 & -> & Hnot).
    exists (state_id s0 :: l1), l2, l3. split; [done|].
    apply not_elem_of_cons. split; [|done].
    intros Heq. rewrite <- Heq in Hfind.
    assert (PriorityQueue.entry_finder q !! state_id sx = Some ax) by (by apply Hlive).
    assert (ax = a0) as -> by congruence.
    specialize (Hrest _ Hax'). unfold key_lt in Hrest. lia.
Qed.

Lemma no_live_no_tracked q :
  wf q → (∀ a, a ∈ PriorityQueue.heap q → element (PriorityQueue.objs q !!! a) = None) →
  PriorityQueue.entry_finder q = ∅.
Proof.
  intros Hwf Hnone. apply map_empty. intros k.
  destruct (PriorityQueue.entry_finder q !! k) as [a|] eqn:Hk; [|done].
  destruct (wf_finder q Hwf k a Hk) as (Ha & s & Hs & _).
  rewrite (Hnone a Ha) in Hs. done.
Qed.

(** Under the contract repeated [pop] returns every tracked payload and ends
    with the IndexError of the empty heap. *)
Lemma pops_drain fuel q :
  wf q → live_tracked q → (length (PriorityQueue.heap q) < fuel)%nat →
  (pop_repeatedly fuel q).2 = IndexError ∧
  length (pop_repeatedly fuel q).1 = PriorityQueue.size q.
Proof.
  revert q. induction fuel as [|fuel IH]; intros q Hwf Hlive Hfuel; [lia|]. simpl.
  pose proof (pop_wf q Hwf) as Hwf'. pose proof (pop_live_tracked q Hwf Hlive) as Hlive'.
  destruct (pop_cases_tracked q Hwf Hlive)
    as [[Hnone Hpop]|(a & s & dead & heap' & Hperm & Hs & Hfind & _ & _ & Hpop)];
    rewrite Hpop in *; simpl in *.
  { split; [done|]. unfold PriorityQueue.size.
    by rewrite (no_live_no_tracked q Hwf Hnone), map_size_empty. }
  destruct (IH _ Hwf' Hlive') as [-> ->].
  { simpl. apply Permutation_length in Hperm. rewrite length_app in Hperm.
    simpl in Hperm. lia. }
  split; [done|]. unfold PriorityQueue.size. simpl.
  rewrite map_size_delete_Some by eauto.
  assert (size (PriorityQueue.entry_finder q) ≠ 0%nat); [|lia].
  apply map_size_ne_0_lookup. eauto.
Qed.

Lemma tracked_are_counted q :
  wf q →
  dom (PriorityQueue.entry_finder q)
    = list_to_set (payload_id (PriorityQueue.objs q) <$> tracked_entries q) ∧
  NoDup (payload_id (PriorityQueue.objs q) <$> tracked_entries q).
Proof.
  intros Hwf. split.
  - apply set_eq. intros k.
    rewrite elem_of_dom, elem_of_list_to_set, list_elem_of_fmap. split.
    + intros [a Ha]. destruct (wf_finder q Hwf k a Ha) as (Hin & s & Hs & Hid).
      exists a. split.
      * unfold payload_id. by rewrite Hs.
      * apply list_elem_of_filter. split; [|done].
        unfold tracked. rewrite Hs, Hid. by apply bool_decide_eq_true.
    + intros (a & -> & [Hl Hin]%list_elem_of_filter).
      unfold tracked in Hl. unfold payload_id.
      destruct (element (PriorityQueue.objs q !!! a)) as [s|] eqn:Hs; [|done].
      apply bool_decide_eq_true in Hl. by exists a.
  - apply NoDup_fmap_2_strong; [|apply NoDup_filter, (wf_nodup q Hwf)].
    intros a b [Ha Hain]%list_elem_of_filter [Hb Hbin]%list_elem_of_filter.
    unfold tracked in Ha, Hb. unfold payload_id.
    destruct (element (PriorityQueue.objs q !!! a)) as [sa|] eqn:Hsa; [|done].
    destruct (element (PriorityQueue.objs q !!! b)) as [sb|] eqn:Hsb; [|done].
    apply bool_decide_eq_true in Ha, Hb. intros Heq. rewrite Heq in Ha. congruence.
Qed.

Lemma size_tracked q : wf q → PriorityQueue.size q = length (tracked_entries q).
Proof.
  intros Hwf. destruct (tracked_are_counted q Hwf) as [Hdom Hnd].
  unfold PriorityQueue.size.
  rewrite <- (size_dom (D := gset nat)), Hdom, size_list_to_set by done.
  by rewrite length_fmap.
Qed.

Lemma filter_agree {A} (P Q : A → Prop) `{!∀ x, Decision (P x), !∀ x, Decision (Q x)}
    (l : list A) :
  (∀ x, x ∈ l → P x ↔ Q x) → filter P l = filter Q l.
Proof.
  induction l as [|a l IH]; intros Hiff; [done|].
  rewrite !filter_cons.
  rewrite IH by (intros x Hx; apply Hiff; by right).
  destruct (Hiff a) as [HPQ HQP]; [by left|].
  destruct (decide (P a)), (decide (Q a)); [done| | |done]; exfalso; auto.
Qed.

(** Under the contract every live entry is tracked. *)
Lemma tracked_live q : wf q → live_tracked q → tracked_entries q = live_entries q.
Proof.
  intros Hwf Hlive. apply filter_agree. intros a Ha. unfold tracked, live.
  destruct (element (PriorityQueue.objs q !!! a)) as [s|] eqn:Hs.
  - rewrite !bool_decide_eq_true. split; [done|]. intros _. by apply Hlive.
  - rewrite bool_decide_eq_true. split; [done|]. by intros [].
Qed.

Lemma size_live q :
  wf q → live_tracked q → PriorityQueue.size q = length (live_entries q).
Proof. intros Hwf Hlive. by rewrite size_tracked, tracked_live. Qed.

(** What any [pop] does to the index. *)
Lemma pop_finder q :
  (∃ e q', PriorityQueue.pop q = (Raise e, q') ∧
           PriorityQueue.entry_finder q' = PriorityQueue.entry_finder q)
  ∨ (∃ s q', PriorityQueue.pop q = (Return s, q') ∧
             is_Some (PriorityQueue.entry_finder q !! state_id s) ∧
             PriorityQueue.entry_finder q'
               = delete (state_id s) (PriorityQueue.entry_finder q)).
Proof.
  unfold PriorityQueue.pop.
  destruct (PriorityQueue.pop_loop _ _ _) as [[[a s]|e] heap'].
  - destruct (PriorityQueue.entry_finder q !! state_id s) eqn:Hs.
    + right. eexists _, _. split; [done|]. split; [by rewrite Hs|done].
    + left. by eexists _, _.
  - left. by eexists _, _.
Qed.

(** The index follows the history of the calls, whatever they are. *)
Lemma tracked_history ops q added :
  dom (PriorityQueue.entry_finder q) = added →
  dom (PriorityQueue.entry_finder (run ops q)) = added_not_popped ops q added.
Proof.
  revert q added. induction ops as [|o ops IH]; intros q added Hdom; simpl; [done|].
  destruct (perform o q) as [r q'] eqn:Hperf. simpl. apply IH.
  destruct o as [s p|s p| |]; unfold perform, bind, ret in Hperf; simpl in *.
  - simplify_eq. simpl. by rewrite dom_insert_L.
  - unfold PriorityQueue.change_priority in Hperf.
    destruct (PriorityQueue.entry_finder q !! state_id s) as [a|] eqn:Ha.
    + simpl in Hperf. simplify_eq. simpl.
      rewrite dom_insert_L, dom_delete_L.
      symmetry. apply union_difference_singleton_L. by apply elem_of_dom_2 in Ha.
    + by simplify_eq.
  - destruct (pop_finder q) as [(e & q1 & Hp & Hf)|(s & q1 & Hp & _ & Hf)];
      rewrite Hp in Hperf; simplify_eq; simpl; rewrite Hf; [done|].
    by rewrite dom_delete_L.
  - simplify_eq. simpl. apply dom_empty_L.
Qed.

(** *** Repeated [pop] after [add] of a tracked payload *)

(** Repeated [pop] of such a queue ends with KeyError, and returns the
    payload [k] once if the index tracks it, and not at all if not. *)
Lemma pops_one_stale fuel q a k :
  wf q → one_stale q a k → (length (PriorityQueue.heap q) < fuel)%nat →
  (pop_repeatedly fuel q).2 = KeyError ∧
  length (filter (λ r, state_id r.2 = k) (pop_repeatedly fuel q).1)
    = match PriorityQueue.entry_finder q !! k with Some _ => 1%nat | None => 0%nat end.
Proof.
  revert q a. induction fuel as [|fuel IH];
    intros q a Hwf (Ha & (sa & Hsa & Hka) & Hstale & Hothers) Hfuel; [lia|]. simpl.
  pose proof (pop_wf q Hwf) as Hwf'.
  destruct (pop_cases q Hwf)
    as [[Hnone _]|(a0 & s0 & dead & heap' & Hperm & Hs0 & _ & Hdead & _ & Hpop)].
  { rewrite (Hnone a Ha) in Hsa. done. }
  assert (length heap' < fuel)%nat as Hfuel'.
  { apply Permutation_length in Hperm. rewrite length_app in Hperm. simpl in Hperm. lia. }
  assert (∀ b s, b ∈ PriorityQueue.heap q → element (PriorityQueue.objs q !!! b) = Some s →
                 b ≠ a0 → b ∈ heap') as Hrest.
  { intros b s Hb Hsb Hne. rewrite Hperm in Hb.
    apply elem_of_app in Hb as [Hd|[->|Hb]%elem_of_cons]; [|done..].
    destruct (Hdead b Hd) as [Hnone _]. congruence. }
  assert (∀ b, b ∈ heap' → b ∈ PriorityQueue.heap q ∧ b ≠ a0) as Hsub.
  { intros b Hb. pose proof (wf_nodup q Hwf) as Hnd. rewrite Hperm in Hnd.
    apply NoDup_app in Hnd as (_ & _ & [Hahd _]%NoDup_cons).
    split; [|by intros ->]. rewrite Hperm. apply elem_of_app. right. by right. }
  rewrite Hpop in *. clear Hpop.
  destruct (decide (a0 = a)) as [->|Hne].
  - (* the stale entry is the least *)
    simplify_eq.
    destruct (PriorityQueue.entry_finder q !! state_id sa) as [a'|] eqn:Hfind; [|done].
    simpl in *.
    destruct (wf_finder q Hwf _ _ Hfind) as (Ha' & s' & Hs' & Hid').
    assert (a' ≠ a) by congruence.
    destruct (IH _ a' Hwf') as [He Hcount]; [|done|].
    { split_and!; simpl.
      - by eapply Hrest.
      - by exists s'.
      - by rewrite lookup_delete_eq.
      - intros b s Hb Hne' Hsb. destruct (Hsub b Hb) as [Hbq Hba].
        pose proof (Hothers b s Hbq Hba Hsb) as Hfb.
        rewrite lookup_delete_ne; [done|]. intros Heq. rewrite Heq in Hfind. congruence. }
    simpl in *. rewrite lookup_delete_eq in Hcount.
    rewrite filter_cons_True by done. simpl. by rewrite He, Hcount.
  - (* a tracked entry is the least *)
    assert (a0 ∈ PriorityQueue.heap q) as Ha0.
    { rewrite Hperm. apply elem_of_app. right. by left. }
    pose proof (Hothers a0 s0 Ha0 Hne Hs0) as Hfind. rewrite Hfind in *. simpl in *.
    assert (one_stale
              (PriorityQueue.mk (PriorityQueue.objs q) heap'
                 (delete (state_id s0) (PriorityQueue.entry_finder q))
                 (PriorityQueue.counter q)) a k) as Hstale'.
    { split_and!; simpl.
      - eapply Hrest; [done..|]. by intros ->.
      - by exists sa.
      - intros [_ Hk]%lookup_delete_Some. done.
      - intros b s Hb Hba Hsb. destruct (Hsub b Hb) as [Hbq Hb0].
        pose proof (Hothers b s Hbq Hba Hsb) as Hfb.
        rewrite lookup_delete_ne; [done|]. intros Heq. rewrite Heq in Hfind. congruence. }
    destruct (IH _ a Hwf' Hstale' Hfuel') as [He Hcount]. simpl in *.
    split; [done|].
    destruct (decide (state_id s0 = k)) as [Hk|Hk].
    + rewrite filter_cons_True by done. simpl.
      assert (PriorityQueue.entry_finder q !! k = Some a0) as Hq by (by rewrite <- Hk).
      assert (delete (state_id s0) (PriorityQueue.entry_finder q) !! k = None) as Hd
        by (rewrite <- Hk; apply lookup_delete_eq).
      rewrite Hd in Hcount. by rewrite Hcount, Hq.
    + rewrite filter_cons_False by done.
      by rewrite lookup_delete_ne in Hcount.
Qed.

(** ** The properties of the queue *)

(** What a returning [pop] has done, for any well-formed queue. *)
Lemma pop_returns_least q state q' :
  wf q → PriorityQueue.pop q = (Return state, q') →
  ∃ a, a ∈ PriorityQueue.heap q ∧
       element (PriorityQueue.objs q !!! a) = Some state ∧
       PriorityQueue.objs q' = PriorityQueue.objs q ∧
       (∀ b, b ∈ live_entries q →
             key_le (PriorityQueue.objs q !!! a) (PriorityQueue.objs q !!! b)) ∧
       (∀ b, b ∈ PriorityQueue.heap q' ↔
             b ∈ PriorityQueue.heap q ∧
             key_lt (PriorityQueue.objs q !!! a) (PriorityQueue.objs q !!! b)) ∧
       (∀ b, b ∈ PriorityQueue.heap q →
             key_lt (PriorityQueue.objs q !!! b) (PriorityQueue.objs q !!! a) →
             live (PriorityQueue.objs q) b = false).
Proof.
  intros Hwf Hpop.
  destruct (pop_cases q Hwf)
    as [[_ Hp]|(a & s & dead & heap' & Hperm & Hs & _ & Hdead & Hrest & Hp)];
    rewrite Hp in Hpop; [done|].
  destruct (PriorityQueue.entry_finder q !! state_id s); [|done].
  simplify_eq. exists a. simpl.
  assert (∀ b, b ∈ PriorityQueue.heap q ↔ b ∈ dead ∨ b = a ∨ b ∈ heap') as Hin.
  { intros b. by rewrite Hperm, elem_of_app, elem_of_cons. }
  split_and!; try done.
  - apply Hin. auto.
  - intros b [Hl [Hd|[->|Hb]]%Hin]%list_elem_of_filter.
    + destruct (Hdead b Hd) as [Hnone _]. unfold live in Hl.
      apply bool_decide_eq_true in Hl. done.
    + unfold key_le. lia.
    + apply Hrest in Hb. unfold key_lt, key_le in *. lia.
  - intros b. split.
    + intros Hb. split; [apply Hin; auto|by apply Hrest].
    + intros [[Hd|[->|Hb]]%Hin Hlt]; [| |done].
      * destruct (Hdead b Hd) as [_ Hlt']. unfold key_lt in *. lia.
      * unfold key_lt in *. lia.
  - intros b [Hd|[->|Hb]]%Hin Hlt.
    + destruct (Hdead b Hd) as [Hnone _]. unfold live.
      apply bool_decide_eq_false. by rewrite Hnone; intros [].
    + unfold key_lt in *. lia.
    + apply Hrest in Hb. unfold key_lt in *. lia.
Qed.

(** The bound of [pops_sorted] can be the priority at the root. *)
Lemma pops_sorted_any fuel q :
  wf q → live_tracked q →
  ∃ ps, map fst (pop_repeatedly fuel q).1 = map Some ps ∧ Sorted Z.le ps.
Proof.
  intros Hwf Hlive.
  destruct (PriorityQueue.heap q) as [|root rest] eqn:Hheap.
  - destruct (pops_sorted fuel q 0 Hwf Hlive) as (ps & Hps & Hsorted & _); [|by exists ps].
    intros b Hb. rewrite Hheap in Hb. by apply elem_of_nil in Hb.
  - destruct (pops_sorted fuel q (priority (PriorityQueue.objs q !!! root)) Hwf Hlive)
      as (ps & Hps & Hsorted & _); [|by exists ps].
    intros b Hb.
    pose proof (heap_root_least _ (ref_lt_irrefl _) (ref_ge_trans _) _ root
                  (wf_heap q Hwf)) as Hroot.
    rewrite Hheap in Hroot. specialize (Hroot eq_refl b).
    rewrite Hheap in Hb. specialize (Hroot Hb).
    apply entry_lt_false in Hroot. unfold key_le in Hroot. lia.
Qed.

(** C5. Heap order: after any calls to the queue, a [pop] that returns
    gives the element of the live entry with the least
    (priority, order-key); the entries it takes from the heap besides are the
    invalidated ones with smaller keys, and the entries with greater keys
    stay. After calls that keep to the contract of [add], repeated [pop]
    returns every tracked payload, and the priorities of the payloads come
    out in non-decreasing order. *)
Theorem pop_heap_order (ops : list queue_op) :
  let q := run ops PriorityQueue.init in
  (∀ state q', PriorityQueue.pop q = (Return state, q') →
     ∃ a, a ∈ PriorityQueue.heap q ∧
          element (PriorityQueue.objs q !!! a) = Some state ∧
          (∀ b, b ∈ live_entries q →
                key_le (PriorityQueue.objs q !!! a) (PriorityQueue.objs q !!! b)) ∧
          (∀ b, b ∈ PriorityQueue.heap q' ↔
                b ∈ PriorityQueue.heap q ∧
                key_lt (PriorityQueue.objs q !!! a) (PriorityQueue.objs q !!! b)) ∧
          (∀ b, b ∈ PriorityQueue.heap q →
                key_lt (PriorityQueue.objs q !!! b) (PriorityQueue.objs q !!! a) →
                live (PriorityQueue.objs q) b = false)) ∧
  (contract_kept ops PriorityQueue.init = true →
   ∃ ps, map fst (pop_all q).1 = map Some ps ∧
         Sorted Z.le ps ∧
         length ps = PriorityQueue.size q).
Proof.
  intros q.
  assert (wf q) as Hwf by apply run_wf, init_wf.
  split.
  - intros state q' Hpop.
    destruct (pop_returns_least q state q' Hwf Hpop) as (a & ? & ? & ? & ? & ? & ?).
    by exists a.
  - intros Hc.
    assert (live_tracked q) as Hlive
      by (apply run_live_tracked; [apply init_wf|apply init_live_tracked|done]).
    unfold pop_all. set (fuel := S (length (PriorityQueue.heap q))).
    destruct (pops_sorted_any fuel q Hwf Hlive) as (ps & Hps & Hsorted).
    exists ps. split_and!; [done..|].
    destruct (pops_drain fuel q Hwf Hlive) as [_ <-]; [unfold fuel; lia|].
    by rewrite <- (length_map fst), Hps, length_map.
Qed.

Lemma pop_heap_order_witness :
  let ops := [Op_add (mkState 1 5) 5; Op_add (mkState 2 3) 3;
              Op_change_priority (mkState 1 2) 2] in
  contract_kept ops PriorityQueue.init = true ∧
  ∃ ps, map fst (pop_all (run ops PriorityQueue.init)).1 = map Some ps ∧
        Sorted Z.le ps ∧
        length ps = PriorityQueue.size (run ops PriorityQueue.init).
Proof.
  split; [reflexivity|].
  apply (pop_heap_order [Op_add (mkState 1 5) 5; Op_add (mkState 2 3) 3;
                         Op_change_priority (mkState 1 2) 2]).
  reflexivity.
Defined.

(** [add] stores the value of the counter in the entry and steps the
    counter, so a later insertion has a greater [insertion_count]. *)
Lemma add_insertion_count s p q :
  tracked_entry s (PriorityQueue.add s p q).2
    = Some (mkEntry p (- Z.of_nat (PriorityQueue.counter q)) (Some s)) ∧
  PriorityQueue.counter (PriorityQueue.add s p q).2 = S (PriorityQueue.counter q).
Proof.
  unfold tracked_entry, PriorityQueue.add. simpl.
  rewrite lookup_insert_eq. simpl. by rewrite list_lookup_total_middle.
Qed.

(** Of two tracked payloads of equal priority the one whose entry holds
    the greater counter value is returned first. *)
Lemma tie_break_in_queue q (x y : HospitalState) (ex ey : Entry) :
  wf q → live_tracked q →
  tracked_entry x q = Some ex → tracked_entry y q = Some ey →
  priority ex = priority ey → insertion_count ex < insertion_count ey →
  ∃ l1 l2 l3,
    map (λ r, state_id r.2) (pop_all q).1 = l1 ++ state_id y :: l2 ++ state_id x :: l3 ∧
    state_id x ∉ l1.
Proof.
  intros Hwf Hlive Hx Hy Hprio Hlater.
  unfold tracked_entry in Hx, Hy.
  destruct (PriorityQueue.entry_finder q !! state_id x) as [ax|] eqn:Hfx; [|done].
  destruct (PriorityQueue.entry_finder q !! state_id y) as [ay|] eqn:Hfy; [|done].
  simpl in Hx, Hy. simplify_eq.
  destruct (wf_finder q Hwf _ _ Hfx) as (Hax & sx & Hsx & <-).
  destruct (wf_finder q Hwf _ _ Hfy) as (Hay & sy & Hsy & <-).
  apply (pops_order _ q ax ay); try done.
  - lia.
  - unfold insertion_count in Hlater. unfold key_lt. lia.
Qed.

Lemma run_app ops1 ops2 q : run (ops1 ++ ops2) q = run ops2 (run ops1 q).
Proof. revert q. induction ops1 as [|o ops1 IH]; intros q; simpl; [done|apply IH]. Qed.

Lemma contract_kept_app ops1 ops2 q :
  contract_kept (ops1 ++ ops2) q = contract_kept ops1 q && contract_kept ops2 (run ops1 q).
Proof.
  revert q. induction ops1 as [|o ops1 IH]; intros q; simpl; [done|].
  by rewrite IH, andb_assoc.
Qed.

(** In terms of the calls: [x] and then [y] are added at the same priority
    to a queue that tracks neither; [y] is returned before [x]. *)
Lemma added_later_pops_first (ops : list queue_op) (x y : HospitalState) (p : Z) :
  contract_kept (ops ++ [Op_add x p; Op_add y p]) PriorityQueue.init = true →
  ∃ l1 l2 l3,
    map (λ r, state_id r.2)
        (pop_all (run (ops ++ [Op_add x p; Op_add y p]) PriorityQueue.init)).1
      = l1 ++ state_id y :: l2 ++ state_id x :: l3 ∧
    state_id x ∉ l1.
Proof.
  intros Hc.
  assert (wf (run (ops ++ [Op_add x p; Op_add y p]) PriorityQueue.init)) as Hwf
    by apply run_wf, init_wf.
  assert (live_tracked (run (ops ++ [Op_add x p; Op_add y p]) PriorityQueue.init)) as Hlive
    by (apply run_live_tracked; [apply init_wf|apply init_live_tracked|done]).
  rewrite contract_kept_app in Hc. apply andb_true_iff in Hc as [_ Hc].
  rewrite run_app in *. set (q := run ops PriorityQueue.init) in *.
  simpl in Hc. rewrite andb_true_r in Hc. apply andb_true_iff in Hc as [_ Hy].
  apply bool_decide_eq_true, get_priority_None in Hy. simpl in Hy.
  assert (state_id x ≠ state_id y) as Hne.
  { intros Heq. rewrite <- Heq, lookup_insert_eq in Hy. done. }
  simpl in *.
  eapply (tie_break_in_queue _ x y
            (mkEntry p (- Z.of_nat (PriorityQueue.counter q)) (Some x))
            (mkEntry p (- Z.of_nat (S (PriorityQueue.counter q))) (Some y)));
    [done|done| | |done|unfold insertion_count; simpl; lia].
  - unfold tracked_entry. simpl. rewrite lookup_insert_ne by done.
    rewrite lookup_insert_eq. simpl.
    rewrite lookup_total_app_l by (rewrite length_app; simpl; lia).
    by rewrite list_lookup_total_middle.
  - unfold tracked_entry. simpl. rewrite lookup_insert_eq. simpl.
    by rewrite list_lookup_total_middle.
Qed.

(** C4. LIFO tie-break: after any calls that keep to the contract of [add],
    if the payloads [x] and [y] are both tracked, with equal priority, and
    the entry of [y] was inserted later (it holds the greater counter
    value), then repeated [pop] returns [y] before it returns [x]. *)
Theorem lifo_tie_break (ops : list queue_op) (x y : HospitalState) (ex ey : Entry) :
  contract_kept ops PriorityQueue.init = true →
  tracked_entry x (run ops PriorityQueue.init) = Some ex →
  tracked_entry y (run ops PriorityQueue.init) = Some ey →
  priority ex = priority ey →
  insertion_count ex < insertion_count ey →
  ∃ l1 l2 l3,
    map (λ r, state_id r.2) (pop_all (run ops PriorityQueue.init)).1
      = l1 ++ state_id y :: l2 ++ state_id x :: l3 ∧
    state_id x ∉ l1.
Proof.
  intros Hc. apply tie_break_in_queue.
  - apply run_wf, init_wf.
  - apply run_live_tracked; [apply init_wf|apply init_live_tracked|done].
Qed.

Lemma lifo_tie_break_witness :
  ∃ l1 l2 l3,
    map (λ r, state_id r.2)
        (pop_all (run [Op_add (mkState 7 1) 1; Op_add (mkState 8 1) 1] PriorityQueue.init)).1
      = l1 ++ 8%nat :: l2 ++ 7%nat :: l3 ∧
    7%nat ∉ l1.
Proof.
  apply (lifo_tie_break [Op_add (mkState 7 1) 1; Op_add (mkState 8 1) 1]
           (mkState 7 1) (mkState 8 1)
           (mkEntry 1 0 (Some (mkState 7 1))) (mkEntry 1 (-1) (Some (mkState 8 1))));
    reflexivity.
Defined.

(** The scenario of the specification: X and Y added at priority 1, Y is
    popped first. *)
Example lifo_scenario :
  (pop_all (run [Op_add (mkState 7 1) 1; Op_add (mkState 8 1) 1] PriorityQueue.init)).1
    = [(Some 1, mkState 8 1); (Some 1, mkState 7 1)].
Proof. reflexivity. Qed.

(** C6. Contract violations fail fast, after any calls to the queue: [pop]
    with no live entry in the heap raises IndexError; [pop] with an empty
    index ([size() == 0]) raises; [change_priority] of a payload that the
    index does not track raises KeyError and leaves the queue as it was. *)
Theorem contract_violations_raise (ops : list queue_op) (s : HospitalState) (p : Z) :
  let q := run ops PriorityQueue.init in
  (live_entries q = [] → (PriorityQueue.pop q).1 = Raise IndexError) ∧
  (PriorityQueue.size q = 0%nat →
     (PriorityQueue.pop q).1 = Raise IndexError ∨ (PriorityQueue.pop q).1 = Raise KeyError) ∧
  (PriorityQueue.get_priority s q = None →
     PriorityQueue.change_priority s p q = (Raise KeyError, q)).
Proof.
  intros q. assert (wf q) as Hwf by apply run_wf, init_wf.
  split_and!.
  - intros Hnil.
    destruct (pop_cases q Hwf)
      as [[_ ->]|(a & s' & dead & heap' & Hperm & Hs & _)]; [done|].
    assert (a ∈ live_entries q) as Ha; [|rewrite Hnil in Ha; by apply elem_of_nil in Ha].
    apply list_elem_of_filter. split.
    + unfold live. apply bool_decide_eq_true. by rewrite Hs.
    + rewrite Hperm. apply elem_of_app. right. by left.
  - intros Hsize. apply map_size_empty_inv in Hsize.
    destruct (pop_cases q Hwf)
      as [[_ ->]|(a & s' & dead & heap' & _ & _ & _ & _ & _ & ->)]; [by left|].
    rewrite Hsize, lookup_empty. by right.
  - intros Hnone%get_priority_None. by apply change_priority_untracked.
Qed.

(** C7. Index consistency: after any calls to the queue, [size()] is the
    number of live entries of the heap that the index tracks, which is the
    number of payloads added and not yet popped, and a payload is contained
    exactly if it is one of these; [size()] is at most the length of the
    heap. While the calls keep to the contract of [add], every live entry of
    the heap is tracked. *)
Theorem size_counts_live_entries (ops : list queue_op) :
  let q := run ops PriorityQueue.init in
  PriorityQueue.size q = length (tracked_entries q) ∧
  PriorityQueue.size q = size (added_not_popped ops PriorityQueue.init ∅) ∧
  (∀ s, PriorityQueue.get_priority s q ≠ None ↔
        state_id s ∈ added_not_popped ops PriorityQueue.init ∅) ∧
  (PriorityQueue.size q ≤ length (PriorityQueue.heap q))%nat ∧
  (contract_kept ops PriorityQueue.init = true →
   tracked_entries q = live_entries q ∧
   PriorityQueue.size q = length (live_entries q)).
Proof.
  intros q.
  assert (wf q) as Hwf by apply run_wf, init_wf.
  pose proof (tracked_history ops PriorityQueue.init ∅ (dom_empty_L (D := gset nat))) as Hdom.
  fold q in Hdom.
  split_and!.
  - by apply size_tracked.
  - rewrite <- Hdom. unfold PriorityQueue.size. by rewrite size_dom.
  - intros s. rewrite <- Hdom, elem_of_dom, get_priority_None.
    by rewrite <- not_eq_None_Some.
  - rewrite size_tracked by done. apply length_filter.
  - intros Hc.
    assert (live_tracked q) as Hlive
      by (apply run_live_tracked; [apply init_wf|apply init_live_tracked|done]).
    split; [by apply tracked_live|by apply size_live].
Qed.

Lemma size_counts_live_entries_witness :
  let ops := [Op_add (mkState 1 5) 5; Op_add (mkState 2 3) 3;
              Op_change_priority (mkState 1 2) 2] in
  PriorityQueue.size (run ops PriorityQueue.init)
    = length (live_entries (run ops PriorityQueue.init)).
Proof.
  apply (size_counts_live_entries
           [Op_add (mkState 1 5) 5; Op_add (mkState 2 3) 3;
            Op_change_priority (mkState 1 2) 2]).
  reflexivity.
Defined.

(** The heap can be longer than [size()]: after a change of priority it
    still holds the invalidated entry. *)
Example heap_holds_invalidated_entries :
  let q := run [Op_add (mkState 1 5) 5; Op_add (mkState 2 3) 3;
                Op_change_priority (mkState 1 2) 2] PriorityQueue.init in
  PriorityQueue.size q = 2%nat ∧ length (PriorityQueue.heap q) = 3%nat.
Proof. split; reflexivity. Qed.

(** A payload that the index does not track stays untracked until it is
    added. *)
Lemma untracked_until_added ops q k :
  PriorityQueue.entry_finder q !! k = None →
  (∀ s p, Op_add s p ∈ ops → state_id s ≠ k) →
  PriorityQueue.entry_finder (run ops q) !! k = None.
Proof.
  revert q. induction ops as [|o ops IH]; intros q Hk Hops; simpl; [done|].
  apply IH; [|intros s p Hin; apply (Hops s p); by right].
  destruct o as [s p|s p| |]; unfold perform, bind, ret; simpl.
  - rewrite lookup_insert_ne; [done|]. apply (Hops s p). by left.
  - unfold PriorityQueue.change_priority.
    destruct (PriorityQueue.entry_finder q !! state_id s) as [a|] eqn:Ha; simpl; [|done].
    assert (state_id s ≠ k) by (intros <-; congruence).
    rewrite lookup_insert_ne by done. by rewrite lookup_delete_ne.
  - destruct (pop_finder q) as [(e & q1 & -> & Hf)|(s & q1 & -> & _ & Hf)];
      simpl; rewrite Hf; [done|].
    apply lookup_delete_None. by right.
  - apply lookup_empty.
Qed.

(** C8. Reset isolation: after [clear()], and after [prepare], which calls
    it, [size()] is 0 and no payload is contained; the counter is 0 again, so
    the next entry added holds the counter value 0; and a payload is not
    reported as tracked before it is added again. *)
Theorem reset_isolation (q : PriorityQueue.t) (self : Frontier)
    (goal : HospitalGoalDescription) :
  let q' := (PriorityQueue.clear q).2 in
  let self' := (FrontierBestFirst.prepare goal self).2 in
  PriorityQueue.size q' = 0%nat ∧
  (∀ s, PriorityQueue.get_priority s q' = None) ∧
  PriorityQueue.counter q' = 0%nat ∧
  (∀ s p, insertion_count <$> tracked_entry s (PriorityQueue.add s p q').2 = Some 0) ∧
  (∀ ops s, (∀ s' p, Op_add s' p ∈ ops → state_id s' ≠ state_id s) →
            PriorityQueue.get_priority s (run ops q') = None) ∧
  priority_queue self' = (PriorityQueue.clear (priority_queue self)).2 ∧
  goal_description self' = Some goal ∧
  FrontierBestFirst.size self' = 0%nat ∧
  (∀ s, FrontierBestFirst.contains s self' = false).
Proof.
  intros q' self'. split_and!; try done.
  - intros s p. destruct (add_insertion_count s p q') as [-> _]. done.
  - intros ops s Hops. apply get_priority_None.
    by apply untracked_until_added.
Qed.

(** A payload added twice and popped with no call in between is returned
    by one [pop] only; the next [pop] reaches the other live entry and
    raises KeyError. *)
Lemma payload_added_twice_pops_once :
  let q := run [Op_add (mkState 1 5) 1; Op_add (mkState 1 5) 2] PriorityQueue.init in
  (PriorityQueue.pop q).1 = Return (mkState 1 5) ∧
  (PriorityQueue.pop (PriorityQueue.pop q).2).1 = Raise KeyError ∧
  pop_all q = ([(Some 2, mkState 1 5)], KeyError).
Proof. split_and!; reflexivity. Qed.

(** [add] of a tracked payload followed by nothing but [pop]: after calls
    that kept to the contract, [add] of a payload that the index tracks
    returns normally; the index then maps the payload to the new entry,
    [size()] is unchanged, and the heap holds two live entries for the
    payload, the earlier one not invalidated. Repeated [pop], with no other
    call in between, then returns the payload once, and ends with KeyError
    at the other of its two entries. *)
Theorem add_of_tracked_payload (ops : list queue_op) (s : HospitalState) (p p0 : Z) :
  contract_kept ops PriorityQueue.init = true →
  PriorityQueue.get_priority s (run ops PriorityQueue.init) = Some p0 →
  let q := run ops PriorityQueue.init in
  let q' := (PriorityQueue.add s p q).2 in
  (PriorityQueue.add s p q).1 = Return tt ∧
  PriorityQueue.get_priority s q' = Some p ∧
  PriorityQueue.size q' = PriorityQueue.size q ∧
  (∃ a a' sa,
     a ≠ a' ∧ a ∈ PriorityQueue.heap q' ∧ a' ∈ PriorityQueue.heap q' ∧
     PriorityQueue.entry_finder q !! state_id s = Some a ∧
     PriorityQueue.entry_finder q' !! state_id s = Some a' ∧
     element (PriorityQueue.objs q' !!! a) = Some sa ∧ state_id sa = state_id s ∧
     element (PriorityQueue.objs q' !!! a') = Some s) ∧
  (pop_all q').2 = KeyError ∧
  length (filter (λ r, state_id r.2 = state_id s) (pop_all q').1) = 1%nat.
Proof.
  intros Hc Hp q q'.
  assert (wf q) as Hwf by apply run_wf, init_wf.
  assert (live_tracked q) as Hlive
    by (apply run_live_tracked; [apply init_wf|apply init_live_tracked|done]).
  assert (wf q') as Hwf' by apply add_wf, Hwf.
  fold q in Hp. unfold PriorityQueue.get_priority in Hp.
  destruct (PriorityQueue.entry_finder q !! state_id s) as [a|] eqn:Ha; [|done].
  destruct (wf_finder q Hwf _ _ Ha) as (Hin & sa & Hsa & Hid).
  pose proof (wf_addr q Hwf a Hin) as Haddr.
  set (a' := length (PriorityQueue.objs q)).
  assert (∀ b, b ∈ PriorityQueue.heap q' ↔ b = a' ∨ b ∈ PriorityQueue.heap q) as Hheap.
  { intros b. unfold q', PriorityQueue.add. simpl.
    by rewrite heappush_perm, elem_of_cons. }
  assert (∀ b, (b < a')%nat →
               PriorityQueue.objs q' !!! b = PriorityQueue.objs q !!! b) as Hold.
  { intros b Hb. unfold q', PriorityQueue.add. simpl. by rewrite lookup_total_app_l. }
  assert (element (PriorityQueue.objs q' !!! a') = Some s) as Hnew.
  { unfold q', PriorityQueue.add, a'. simpl. by rewrite list_lookup_total_middle. }
  assert (PriorityQueue.entry_finder q' !! state_id s = Some a') as Ha'.
  { unfold q', PriorityQueue.add. simpl. apply lookup_insert_eq. }
  assert (one_stale q' a (state_id s)) as Hstale.
  { split_and!.
    - apply Hheap. by right.
    - exists sa. by rewrite Hold.
    - rewrite Ha'. intros [= Heq]. lia.
    - intros b sb [->|Hb]%Hheap Hne Hsb.
      + rewrite Hnew in Hsb. by simplify_eq.
      + rewrite Hold in Hsb by (by apply (wf_addr q Hwf)).
        pose proof (Hlive b sb Hb Hsb) as Hfb.
        unfold q', PriorityQueue.add. simpl.
        rewrite lookup_insert_ne; [done|]. intros Heq. rewrite Heq in Ha. congruence. }
  destruct (pops_one_stale (S (length (PriorityQueue.heap q'))) q' a (state_id s)
              Hwf' Hstale ltac:(lia)) as [Hend Hcount].
  rewrite Ha' in Hcount.
  split_and!; try done.
  - unfold PriorityQueue.get_priority. rewrite Ha'.
    unfold q', PriorityQueue.add, a'. simpl. by rewrite list_lookup_total_middle.
  - unfold q', PriorityQueue.add, PriorityQueue.size. simpl.
    by rewrite map_size_insert_Some.
  - exists a, a', sa. split_and!; try done.
    + lia.
    + apply Hheap. by right.
    + apply Hheap. by left.
    + by rewrite Hold.
Qed.

Lemma add_of_tracked_payload_witness :
  let q' := (PriorityQueue.add (mkState 1 5) 2
               (run [Op_add (mkState 1 5) 1; Op_add (mkState 2 3) 3] PriorityQueue.init)).2 in
  (pop_all q').2 = KeyError ∧
  length (filter (λ r, state_id r.2 = 1%nat) (pop_all q').1) = 1%nat.
Proof.
  apply (add_of_tracked_payload [Op_add (mkState 1 5) 1; Op_add (mkState 2 3) 3]
           (mkState 1 5) 2 1); reflexivity.
Defined.

(** ** The properties of the frontiers *)

(** No method reads [self.heuristic]: a call returns the same, and changes
    the other attributes in the same way, whatever it holds. *)
Lemma invoke_ignores_heuristic D call c gd pq h1 h2 :
  ∃ r gd' pq',
    invoke D call (mkFrontier c gd pq h1) = (r, mkFrontier c gd' pq' h1) ∧
    invoke D call (mkFrontier c gd pq h2) = (r, mkFrontier c gd' pq' h2).
Proof.
  destruct call; unfold invoke, bind, ret; simpl.
  - by eexists _, _, _.
  - unfold FrontierBestFirst.add, FrontierBestFirst.contains, on_queue, bind, ret.
    simpl. case_bool_decide; simpl; by eexists _, _, _.
  - unfold FrontierBestFirst.pop, on_queue. simpl.
    destruct (PriorityQueue.pop pq) as [[state|e] pq']; by eexists _, _, _.
  - by eexists _, _, _.
  - by eexists _, _, _.
  - by eexists _, _, _.
  - unfold resolve_g. simpl. destruct c; by eexists _, _, _.
  - unfold resolve_h. simpl. destruct c; by eexists _, _, _.
  - by eexists _, _, _.
Qed.

Lemma invoke_all_ignores_heuristic D calls c gd pq h1 h2 :
  (invoke_all D calls (mkFrontier c gd pq h1)).1
    = (invoke_all D calls (mkFrontier c gd pq h2)).1 ∧
  goal_description (invoke_all D calls (mkFrontier c gd pq h1)).2
    = goal_description (invoke_all D calls (mkFrontier c gd pq h2)).2 ∧
  priority_queue (invoke_all D calls (mkFrontier c gd pq h1)).2
    = priority_queue (invoke_all D calls (mkFrontier c gd pq h2)).2.
Proof.
  revert gd pq. induction calls as [|call calls IH]; intros gd pq; simpl; [done|].
  destruct (invoke_ignores_heuristic D call c gd pq h1 h2) as (r & gd' & pq' & -> & ->).
  specialize (IH gd' pq').
  destruct (invoke_all D calls (mkFrontier c gd' pq' h1)) as [rs1 f1].
  destruct (invoke_all D calls (mkFrontier c gd' pq' h2)) as [rs2 f2].
  simpl in *. by destruct IH as (-> & -> & ->).
Qed.

(** C9. The heuristic given to the constructor of [FrontierAStar] or
    [FrontierGreedy] has no influence: whatever sequence of methods is
    called, two frontiers built with different heuristics give the same
    results (values and exceptions) and end with the same goal description
    and the same queue. *)
Theorem heuristic_is_ignored (D : hospital_domain) (heuristic1 heuristic2 : Heuristic)
    (calls : list method_call) :
  let same (run1 run2 : list (result pyval) * Frontier) :=
    run1.1 = run2.1 ∧
    goal_description run1.2 = goal_description run2.2 ∧
    priority_queue run1.2 = priority_queue run2.2 in
  same (invoke_all D calls (FrontierAStar.init heuristic1))
       (invoke_all D calls (FrontierAStar.init heuristic2)) ∧
  same (invoke_all D calls (FrontierGreedy.init heuristic1))
       (invoke_all D calls (FrontierGreedy.init heuristic2)).
Proof. intros same. split; apply invoke_all_ignores_heuristic. Qed.

(** [add] of a state that the frontier contains: the call of
    [get_priority] with two arguments raises TypeError before anything is
    compared or changed. *)
Lemma add_contained_raises (self : Frontier) (state : HospitalState) :
  FrontierBestFirst.contains state self = true →
  FrontierBestFirst.add state self = (Raise TypeError, self).
Proof.
  intros Hc. unfold FrontierBestFirst.add. rewrite Hc. simpl.
  unfold bind, on_queue, call1, raise. simpl. by destruct self.
Qed.

(** C1, on the code: a frontier holds a state at priority 5; [add] of the
    same state reached at cost 2, and at cost 7, raises TypeError and leaves
    the frontier as it was, the stored priority still 5. *)
Theorem add_of_contained_state_raises :
  let self :=
    (FrontierBestFirst.add (mkState 1 5)
       (FrontierBestFirst.prepare 0%nat FrontierBestFirst.init).2).2 in
  PriorityQueue.get_priority (mkState 1 5) (priority_queue self) = Some 5 ∧
  FrontierBestFirst.add (mkState 1 2) self = (Raise TypeError, self) ∧
  PriorityQueue.get_priority (mkState 1 2) (priority_queue self) = Some 5 ∧
  FrontierBestFirst.add (mkState 1 7) self = (Raise TypeError, self).
Proof. split_and!; reflexivity. Qed.

(** The scenario of the specification, on a frontier: A is added at cost 5,
    B at cost 3, A again at cost 2. The third [add] raises, and the frontier
    returns B and then A. *)
Example reopening_scenario :
  (invoke_all (mkDomain (λ _, 0) (λ _, 0) (λ _ _, []))
     [Call_prepare 0%nat; Call_add (mkState 1 5); Call_add (mkState 2 3);
      Call_add (mkState 1 2); Call_pop; Call_pop]
     FrontierBestFirst.init).1
  = [Return VNone; Return VNone; Return VNone; Raise TypeError;
     Return (VState (mkState 2 3)); Return (VState (mkState 1 5))].
Proof. reflexivity. Qed.

(** C2 fails on the code: the generic frontier ranks a state of path cost
    5 at 5, not at 0. *)
Lemma best_first_priority_not_zero :
  FrontierBestFirst.g FrontierBestFirst.init (mkState 1 5) None = 5 ∧
  FrontierBestFirst.f FrontierBestFirst.init (mkState 1 5) None = 5 ∧
  PriorityQueue.get_priority (mkState 1 5)
    (priority_queue (FrontierBestFirst.add (mkState 1 5) FrontierBestFirst.init).2)
    = Some 5.
Proof. split_and!; reflexivity. Qed.

(** C2, amended: for the generic frontier [g(state)] is [state.path_cost]
    and [h(state)] is 0, so [f(state)] is [state.path_cost], and that is the
    priority at which [add] inserts a state the frontier does not contain. *)
Theorem best_first_priority_is_path_cost (self : Frontier) (state : HospitalState)
    (goal : option HospitalGoalDescription) :
  FrontierBestFirst.g self state goal = path_cost state ∧
  FrontierBestFirst.h self state goal = 0 ∧
  FrontierBestFirst.f self state goal = path_cost state ∧
  (FrontierBestFirst.contains state self = false →
   (FrontierBestFirst.add state self).1 = Return tt ∧
   PriorityQueue.get_priority state (priority_queue (FrontierBestFirst.add state self).2)
     = Some (path_cost state)).
Proof.
  split_and!; try done.
  intros Hc. unfold FrontierBestFirst.add. rewrite Hc. simpl. split; [done|].
  unfold PriorityQueue.get_priority. simpl. rewrite lookup_insert_eq.
  by rewrite list_lookup_total_middle.
Qed.

(** C3 fails on the code: two frontiers built with heuristics that differ
    on a state answer the same [h] for it, whatever the functions of the
    heuristics module are. *)
Lemma h_is_not_the_given_heuristic :
  ∃ (heuristic1 heuristic2 : Heuristic) (state : HospitalState),
    heuristic1 state ≠ heuristic2 state ∧
    ∀ D goal,
      FrontierAStar.h D (FrontierAStar.init heuristic1) state goal
        = FrontierAStar.h D (FrontierAStar.init heuristic2) state goal ∧
      FrontierGreedy.h D (FrontierGreedy.init heuristic1) state goal
        = FrontierGreedy.h D (FrontierGreedy.init heuristic2) state goal ∧
      (FrontierAStar.h D (FrontierAStar.init heuristic1) state goal ≠ heuristic1 state ∨
       FrontierAStar.h D (FrontierAStar.init heuristic2) state goal ≠ heuristic2 state) ∧
      (FrontierGreedy.h D (FrontierGreedy.init heuristic1) state goal ≠ heuristic1 state ∨
       FrontierGreedy.h D (FrontierGreedy.init heuristic2) state goal ≠ heuristic2 state).
Proof.
  exists (λ _, 0), (λ _, 1), (mkState 1 0). split; [done|].
  intros D goal. unfold FrontierAStar.h, FrontierGreedy.h. split_and!; [done|done| |].
  - destruct (decide (HospitalZeroHeuristic D (mkState 1 0) = 0)) as [->|]; [by right|by left].
  - destruct (decide (HospitalAdvancedHeuristics D (mkState 1 0) = 0)) as [->|];
      [by right|by left].
Qed.

(** C3, amended: [FrontierAStar.h] returns what
    [h_heuristics.HospitalZeroHeuristic] returns for the state, and
    [FrontierGreedy.h] what [h_heuristics.HospitalAdvancedHeuristics] returns
    for it, whatever heuristic the frontier was built with; a call of [h] on
    such a frontier resolves to these. *)
Theorem h_is_fixed_by_class (D : hospital_domain) (heuristic : Heuristic)
    (self : Frontier) (state : HospitalState) (goal : option HospitalGoalDescription) :
  FrontierAStar.h D self state goal = HospitalZeroHeuristic D state ∧
  FrontierGreedy.h D self state goal = HospitalAdvancedHeuristics D state ∧
  resolve_h D (FrontierAStar.init heuristic) state goal = HospitalZeroHeuristic D state ∧
  resolve_h D (FrontierGreedy.init heuristic) state goal
    = HospitalAdvancedHeuristics D state.
Proof. done. Qed.

(** ** Further properties of the queue *)

Lemma get_priority_Some s q p :
  PriorityQueue.get_priority s q = Some p ↔
  ∃ a, PriorityQueue.entry_finder q !! state_id s = Some a ∧
       priority (PriorityQueue.objs q !!! a) = p.
Proof.
  unfold PriorityQueue.get_priority.
  destruct (PriorityQueue.entry_finder q !! state_id s) as [a|]; split.
  - intros [= <-]. by exists a.
  - intros (b & [= <-] & <-). done.
  - done.
  - by intros (b & ? & _).
Qed.

(** [add] and [get_priority]: after any calls, [add(x, p)] returns, the
    priority of [x] is then [p], the priority of every other payload is what
    it was, and [size()] is one more if [x] was not tracked and the same if
    it was. *)
Theorem add_then_get_priority (ops : list queue_op) (x : HospitalState) (p : Z) :
  let q := run ops PriorityQueue.init in
  let q' := (PriorityQueue.add x p q).2 in
  (PriorityQueue.add x p q).1 = Return tt ∧
  PriorityQueue.get_priority x q' = Some p ∧
  (∀ y, state_id y ≠ state_id x →
        PriorityQueue.get_priority y q' = PriorityQueue.get_priority y q) ∧
  PriorityQueue.size q'
    = match PriorityQueue.get_priority x q with
      | None => S (PriorityQueue.size q)
      | Some _ => PriorityQueue.size q
      end.
Proof.
  intros q q'. assert (wf q) as Hwf by apply run_wf, init_wf.
  split_and!.
  - done.
  - unfold q', PriorityQueue.get_priority, PriorityQueue.add. simpl.
    rewrite lookup_insert_eq. by rewrite list_lookup_total_middle.
  - intros y Hne. unfold q', PriorityQueue.get_priority, PriorityQueue.add. simpl.
    rewrite lookup_insert_ne by done.
    destruct (PriorityQueue.entry_finder q !! state_id y) as [b|] eqn:Hb; [|done].
    destruct (wf_finder q Hwf _ _ Hb) as [Hin _].
    by rewrite lookup_total_app_l by (by apply (wf_addr q Hwf)).
  - unfold q', PriorityQueue.get_priority, PriorityQueue.add, PriorityQueue.size. simpl.
    destruct (PriorityQueue.entry_finder q !! state_id x) as [a|] eqn:Ha.
    + by rewrite map_size_insert_Some.
    + by rewrite map_size_insert_None.
Qed.

(** [change_priority] of a tracked payload, after any calls: it returns,
    the priority of the payload is then the new one, the priority of every
    other payload and [size()] are what they were, and the heap is one entry
    longer: the old entry stays in it, invalidated. *)
Theorem change_priority_updates (ops : list queue_op) (x : HospitalState) (p p0 : Z) :
  PriorityQueue.get_priority x (run ops PriorityQueue.init) = Some p0 →
  let q := run ops PriorityQueue.init in
  let q' := (PriorityQueue.change_priority x p q).2 in
  (PriorityQueue.change_priority x p q).1 = Return tt ∧
  PriorityQueue.get_priority x q' = Some p ∧
  (∀ y, state_id y ≠ state_id x →
        PriorityQueue.get_priority y q' = PriorityQueue.get_priority y q) ∧
  PriorityQueue.size q' = PriorityQueue.size q ∧
  length (PriorityQueue.heap q') = S (length (PriorityQueue.heap q)) ∧
  ∃ a, PriorityQueue.entry_finder q !! state_id x = Some a ∧
       a ∈ PriorityQueue.heap q' ∧
       element (PriorityQueue.objs q' !!! a) = None.
Proof.
  intros Hp q q'. fold q in Hp. assert (wf q) as Hwf by apply run_wf, init_wf.
  apply get_priority_Some in Hp as (a & Ha & _).
  destruct (wf_finder q Hwf _ _ Ha) as (Hin & sa & Hsa & Hid).
  pose proof (wf_addr q Hwf a Hin) as Haddr.
  unfold q'. rewrite (change_priority_tracked _ _ _ _ Ha).
  unfold PriorityQueue.add, invalidated, PriorityQueue.get_priority, PriorityQueue.size.
  simpl. rewrite length_alter.
  split_and!.
  - done.
  - rewrite lookup_insert_eq. by rewrite list_lookup_total_middle by (by rewrite length_alter).
  - intros y Hne. rewrite lookup_insert_ne, lookup_delete_ne by done.
    destruct (PriorityQueue.entry_finder q !! state_id y) as [b|] eqn:Hb; [|done].
    destruct (wf_finder q Hwf _ _ Hb) as (Hbin & sb & Hsb & Hidb).
    rewrite lookup_total_app_l
      by (rewrite length_alter; by apply (wf_addr q Hwf)).
    by destruct (invalidate_keys (PriorityQueue.objs q) a b) as [-> _].
  - rewrite map_size_insert_None by apply lookup_delete_eq.
    rewrite map_size_delete_Some by eauto.
    assert (size (PriorityQueue.entry_finder q) ≠ 0%nat); [|lia].
    apply map_size_ne_0_lookup. eauto.
  - by rewrite (Permutation_length (heappush_perm _ _ _)).
  - exists a. split_and!; [done| |].
    + rewrite heappush_perm. by right.
    + rewrite lookup_total_app_l by (by rewrite length_alter).
      by rewrite list_lookup_total_alter_eq.
Qed.

Lemma change_priority_updates_witness :
  PriorityQueue.get_priority (mkState 1 2)
    (PriorityQueue.change_priority (mkState 1 2) 2
       (run [Op_add (mkState 1 5) 5; Op_add (mkState 2 3) 3] PriorityQueue.init)).2
  = Some 2.
Proof.
  apply (change_priority_updates [Op_add (mkState 1 5) 5; Op_add (mkState 2 3) 3]
           (mkState 1 2) 2 5).
  reflexivity.
Defined.

(** A [pop] that returns, after any calls: the payload was tracked and is
    not tracked any more, [size()] is one less, the heap is shorter, and the
    priority of every other payload is what it was. *)
Theorem pop_removes_payload (ops : list queue_op) (s : HospitalState)
    (q' : PriorityQueue.t) :
  PriorityQueue.pop (run ops PriorityQueue.init) = (Return s, q') →
  let q := run ops PriorityQueue.init in
  PriorityQueue.get_priority s q ≠ None ∧
  PriorityQueue.get_priority s q' = None ∧
  PriorityQueue.size q = S (PriorityQueue.size q') ∧
  (length (PriorityQueue.heap q') < length (PriorityQueue.heap q))%nat ∧
  (∀ y, state_id y ≠ state_id s →
        PriorityQueue.get_priority y q' = PriorityQueue.get_priority y q).
Proof.
  intros Hpop q. fold q in Hpop. assert (wf q) as Hwf by apply run_wf, init_wf.
  destruct (pop_cases q Hwf)
    as [[_ Hp]|(a & s' & dead & heap' & Hperm & _ & _ & _ & _ & Hp)];
    rewrite Hp in Hpop; [done|].
  destruct (PriorityQueue.entry_finder q !! state_id s') as [b|] eqn:Hb; [|done].
  simplify_eq. unfold PriorityQueue.get_priority, PriorityQueue.size. simpl.
  split_and!.
  - by rewrite Hb.
  - by rewrite lookup_delete_eq.
  - rewrite map_size_delete_Some by eauto.
    assert (size (PriorityQueue.entry_finder q) ≠ 0%nat); [|lia].
    apply map_size_ne_0_lookup. eauto.
  - apply Permutation_length in Hperm. rewrite length_app in Hperm. simpl in Hperm. lia.
  - intros y Hne. by rewrite lookup_delete_ne.
Qed.

Lemma pop_removes_payload_witness :
  PriorityQueue.get_priority (mkState 2 3)
    (PriorityQueue.pop
       (run [Op_add (mkState 1 5) 5; Op_add (mkState 2 3) 3] PriorityQueue.init)).2
  = None.
Proof.
  apply (pop_removes_payload [Op_add (mkState 1 5) 5; Op_add (mkState 2 3) 3]
           (mkState 2 3)).
  reflexivity.
Defined.

(** [pop] returns a payload of least priority: after calls that keep to
    the contract of [add], the priority that [get_priority] reports for the
    payload returned is at most the priority of any tracked payload. *)
Theorem pop_least_priority (ops : list queue_op) (s t : HospitalState)
    (q' : PriorityQueue.t) (p pt : Z) :
  contract_kept ops PriorityQueue.init = true →
  PriorityQueue.pop (run ops PriorityQueue.init) = (Return s, q') →
  PriorityQueue.get_priority s (run ops PriorityQueue.init) = Some p →
  PriorityQueue.get_priority t (run ops PriorityQueue.init) = Some pt →
  p ≤ pt.
Proof.
  intros Hc Hpop Hs Ht. set (q := run ops PriorityQueue.init) in *.
  assert (wf q) as Hwf by apply run_wf, init_wf.
  assert (live_tracked q) as Hlive
    by (apply run_live_tracked; [apply init_wf|apply init_live_tracked|done]).
  destruct (pop_cases_tracked q Hwf Hlive)
    as [[_ Hp]|(a & s' & dead & heap' & Hperm & Hs' & Hfind & Hdead & Hrest & Hp)];
    rewrite Hp in Hpop; [done|]. simplify_eq.
  apply get_priority_Some in Hs as (a' & Ha' & <-).
  apply get_priority_Some in Ht as (b & Hb & <-).
  assert (a' = a) as -> by congruence.
  destruct (wf_finder q Hwf _ _ Hb) as (Hin & sb & Hsb & _).
  rewrite Hperm in Hin. apply elem_of_app in Hin as [Hd|[->|Hin]%elem_of_cons].
  - destruct (Hdead b Hd) as [Hnone _]. congruence.
  - lia.
  - apply Hrest in Hin. unfold key_lt in Hin. lia.
Qed.

Lemma pop_least_priority_witness : 3 ≤ 5.
Proof.
  apply (pop_least_priority [Op_add (mkState 1 5) 5; Op_add (mkState 2 3) 3]
           (mkState 2 3) (mkState 1 5)
           (PriorityQueue.pop
              (run [Op_add (mkState 1 5) 5; Op_add (mkState 2 3) 3] PriorityQueue.init)).2
           3 5);
    reflexivity.
Defined.

(** Repeated [pop] returns every tracked payload exactly once: after calls
    that keep to the contract of [add], the payloads returned until the
    IndexError of the empty heap are pairwise different, and they are the
    payloads that the index tracked. *)
Theorem pop_all_returns_each_once (ops : list queue_op) :
  contract_kept ops PriorityQueue.init = true →
  let q := run ops PriorityQueue.init in
  (pop_all q).2 = IndexError ∧
  NoDup (map (λ r, state_id r.2) (pop_all q).1) ∧
  ∀ s, state_id s ∈ map (λ r, state_id r.2) (pop_all q).1 ↔
       PriorityQueue.get_priority s q ≠ None.
Proof.
  intros Hc q.
  assert (wf q) as Hwf by apply run_wf, init_wf.
  assert (live_tracked q) as Hlive
    by (apply run_live_tracked; [apply init_wf|apply init_live_tracked|done]).
  destruct (pops_drain (S (length (PriorityQueue.heap q))) q Hwf Hlive ltac:(lia))
    as [Hend Hlen].
  destruct (tracked_are_counted q Hwf) as [Hdom Hnd].
  rewrite (tracked_live q Hwf Hlive) in Hdom, Hnd.
  set (ids := map (λ r, state_id r.2) (pop_all q).1).
  set (keys := payload_id (PriorityQueue.objs q) <$> live_entries q) in *.
  assert (keys ≡ₚ ids) as Hperm.
  { apply submseteq_length_Permutation.
    - apply NoDup_submseteq; [done|].
      intros k (a & -> & [Hl Hin]%list_elem_of_filter)%list_elem_of_fmap.
      unfold live in Hl. apply bool_decide_eq_true in Hl. unfold payload_id.
      destruct (element (PriorityQueue.objs q !!! a)) as [s|] eqn:Hs; [|done].
      unfold ids, pop_all. apply (pops_complete _ q a s); try done. lia.
    - unfold ids, keys, pop_all. rewrite length_map, length_fmap.
      rewrite Hlen. by rewrite size_live. }
  split_and!.
  - done.
  - by rewrite <- Hperm.
  - intros s. rewrite <- Hperm.
    assert (state_id s ∈ dom (PriorityQueue.entry_finder q) ↔ state_id s ∈ keys) as <-
      by (rewrite Hdom; apply elem_of_list_to_set).
    rewrite elem_of_dom, get_priority_None. by rewrite <- not_eq_None_Some.
Qed.

Lemma pop_all_returns_each_once_witness :
  (pop_all (run [Op_add (mkState 1 5) 5; Op_add (mkState 2 3) 3;
                 Op_change_priority (mkState 1 2) 2] PriorityQueue.init)).2
  = IndexError.
Proof.
  apply (pop_all_returns_each_once
           [Op_add (mkState 1 5) 5; Op_add (mkState 2 3) 3;
            Op_change_priority (mkState 1 2) 2]).
  reflexivity.
Defined.

(** The counter values are unique: after any calls, every entry of the
    heap holds the negation of a counter value below the counter, no two
    entries hold the same, and so the comparison of two entries of the heap
    is decided by their priorities and counts, one of them being smaller. *)
Theorem counter_values_distinct (ops : list queue_op) :
  let q := run ops PriorityQueue.init in
  (∀ a, a ∈ PriorityQueue.heap q →
        ∃ c : nat, insertion_count (PriorityQueue.objs q !!! a) = Z.of_nat c ∧
                   (c < PriorityQueue.counter q)%nat) ∧
  (∀ a b, a ∈ PriorityQueue.heap q → b ∈ PriorityQueue.heap q → a ≠ b →
          insertion_count (PriorityQueue.objs q !!! a)
            ≠ insertion_count (PriorityQueue.objs q !!! b) ∧
          (entry_lt (PriorityQueue.objs q !!! a) (PriorityQueue.objs q !!! b) = true ∨
           entry_lt (PriorityQueue.objs q !!! b) (PriorityQueue.objs q !!! a) = true)).
Proof.
  intros q. assert (wf q) as Hwf by apply run_wf, init_wf. split.
  - intros a Ha. destruct (wf_count q Hwf a Ha) as (c & Hc & Hlt).
    exists c. unfold insertion_count. split; [lia|done].
  - intros a b Ha Hb Hne.
    assert (order_key (PriorityQueue.objs q !!! a) ≠ order_key (PriorityQueue.objs q !!! b))
      as Hkeys by (intros Heq; by apply (wf_distinct q Hwf) in Heq).
    split; [unfold insertion_count; lia|].
    rewrite !entry_lt_true. unfold key_lt. lia.
Qed.

(** ** Further properties of the frontiers *)

Lemma init_frontier_queue : frontier_queue PriorityQueue.init.
Proof.
  split_and!; [apply init_wf|apply init_live_tracked| |].
  - intros a s Ha. simpl in Ha. by apply elem_of_nil in Ha.
  - intros a Ha. simpl in Ha. by apply elem_of_nil in Ha.
Qed.

Lemma clear_frontier_queue q : frontier_queue (PriorityQueue.clear q).2.
Proof.
  split_and!; [apply clear_wf|apply clear_live_tracked| |].
  - intros a s Ha. simpl in Ha. by apply elem_of_nil in Ha.
  - intros a Ha. simpl in Ha. by apply elem_of_nil in Ha.
Qed.

Lemma add_frontier_queue s q :
  frontier_queue q → PriorityQueue.entry_finder q !! state_id s = None →
  frontier_queue (PriorityQueue.add s (path_cost s) q).2.
Proof.
  intros (Hwf & Hlive & Hpriced & Hnone) Hnew.
  split_and!; [by apply add_wf|by apply add_live_tracked| |].
  - intros a s'. unfold PriorityQueue.add. simpl.
    rewrite heappush_perm, elem_of_cons. intros [->|Ha].
    + rewrite list_lookup_total_middle by done. simpl. by intros [= <-].
    + rewrite lookup_total_app_l by (by apply (wf_addr q Hwf)). by apply Hpriced.
  - intros a. unfold PriorityQueue.add. simpl.
    rewrite heappush_perm, elem_of_cons. intros [->|Ha].
    + by rewrite list_lookup_total_middle.
    + rewrite lookup_total_app_l by (by apply (wf_addr q Hwf)). by apply Hnone.
Qed.

Lemma pop_frontier_queue q : frontier_queue q → frontier_queue (PriorityQueue.pop q).2.
Proof.
  intros (Hwf & Hlive & Hpriced & Hnone).
  pose proof (pop_wf q Hwf) as Hwf'. pose proof (pop_live_tracked q Hwf Hlive) as Hlive'.
  split_and!; [done|done| |];
    destruct (pop_cases_tracked q Hwf Hlive)
      as [[_ Hp]|(a & s & dead & heap' & Hperm & _ & _ & _ & _ & Hp)];
    rewrite Hp; simpl.
  - intros b s' Hb. by apply elem_of_nil in Hb.
  - intros b s' Hb. apply Hpriced. rewrite Hperm. apply elem_of_app. right. by right.
  - intros b Hb. by apply elem_of_nil in Hb.
  - intros b Hb. apply Hnone. rewrite Hperm. apply elem_of_app. right. by right.
Qed.

Lemma invoke_frontier_queue D call self :
  frontier_queue (priority_queue self) →
  frontier_queue (priority_queue (invoke D call self).2).
Proof.
  intros Hq. destruct call; unfold invoke, bind, ret; simpl; try done.
  - apply clear_frontier_queue.
  - destruct (FrontierBestFirst.contains state self) eqn:Hc.
    + by rewrite (add_contained_raises self state Hc).
    + unfold FrontierBestFirst.add. rewrite Hc. simpl.
      apply add_frontier_queue; [done|].
      unfold FrontierBestFirst.contains in Hc.
      apply negb_false_iff, bool_decide_eq_true in Hc. by apply get_priority_None.
  - unfold FrontierBestFirst.pop, on_queue.
    pose proof (pop_frontier_queue _ Hq) as Hq'.
    by destruct (PriorityQueue.pop (priority_queue self)) as [[state|e] pq'].
Qed.

Lemma invoke_all_frontier_queue D calls self :
  frontier_queue (priority_queue self) →
  frontier_queue (priority_queue (invoke_all D calls self).2).
Proof.
  revert self. induction calls as [|call calls IH]; intros self Hq; simpl; [done|].
  pose proof (invoke_frontier_queue D call self Hq) as Hq'.
  destruct (invoke D call self) as [r self']. specialize (IH self' Hq').
  by destruct (invoke_all D calls self') as [rs self''].
Qed.

(** The search loop is safe: after any sequence of method calls on a new
    frontier of any of the three classes, [pop] returns a state whenever
    [is_empty()] is false; the state was contained and is not contained
    afterwards, and [size()] is one less. When [is_empty()] is true, [pop]
    raises IndexError. *)
Theorem frontier_pop_when_not_empty (D : hospital_domain) (calls : list method_call)
    (c : frontier_class) (heuristic : option Heuristic) :
  let self := (invoke_all D calls (mkFrontier c None PriorityQueue.init heuristic)).2 in
  (FrontierBestFirst.is_empty self = false →
   ∃ state self',
     FrontierBestFirst.pop self = (Return state, self') ∧
     FrontierBestFirst.contains state self = true ∧
     FrontierBestFirst.contains state self' = false ∧
     FrontierBestFirst.size self = S (FrontierBestFirst.size self')) ∧
  (FrontierBestFirst.is_empty self = true →
   (FrontierBestFirst.pop self).1 = Raise IndexError).
Proof.
  intros self.
  destruct (invoke_all_frontier_queue D calls
              (mkFrontier c None PriorityQueue.init heuristic) init_frontier_queue)
    as (Hwf & Hlive & _ & _).
  fold self in Hwf, Hlive.
  unfold FrontierBestFirst.is_empty, FrontierBestFirst.size, FrontierBestFirst.pop,
    FrontierBestFirst.contains, on_queue, PriorityQueue.size, PriorityQueue.get_priority.
  destruct (pop_cases_tracked _ Hwf Hlive)
    as [[Hnone ->]|(a & s & dead & heap' & _ & _ & Hfind & _ & _ & ->)].
  - rewrite (no_live_no_tracked _ Hwf Hnone), map_size_empty. split; [|done].
    intros Hne. by apply bool_decide_eq_false in Hne.
  - split.
    + intros _. eexists _, _. split; [done|]. simpl.
      rewrite Hfind, lookup_delete_eq. split_and!; [done..|].
      rewrite map_size_delete_Some by eauto.
      assert (size (PriorityQueue.entry_finder (priority_queue self)) ≠ 0%nat); [|lia].
      apply map_size_ne_0_lookup. eauto.
    + intros Hempty%bool_decide_eq_true%map_size_empty_inv.
      rewrite Hempty, lookup_empty in Hfind. done.
Qed.

(** Repeated [pop] of a frontier is repeated [pop] of its queue. *)
Lemma frontier_pop_repeatedly_queue fuel self :
  frontier_pop_repeatedly fuel self
    = (snd <$> (pop_repeatedly fuel (priority_queue self)).1,
       (pop_repeatedly fuel (priority_queue self)).2).
Proof.
  revert self. induction fuel as [|fuel IH]; intros self; simpl; [done|].
  unfold FrontierBestFirst.pop, on_queue.
  destruct (PriorityQueue.pop (priority_queue self)) as [[state|e] pq']; [|done].
  by rewrite IH.
Qed.

(** In the queue of a frontier the priority of a state is its path cost. *)
Lemma pops_priced fuel q :
  frontier_queue q →
  Forall (λ r, r.1 = Some (path_cost r.2)) (pop_repeatedly fuel q).1.
Proof.
  revert q. induction fuel as [|fuel IH]; intros q Hq; simpl; [done|].
  pose proof (pop_frontier_queue q Hq) as Hq'.
  destruct Hq as (Hwf & Hlive & Hpriced & _).
  destruct (pop_cases_tracked q Hwf Hlive)
    as [[_ Hp]|(a & s & dead & heap' & Hperm & Hs & Hfind & _ & _ & Hp)];
    rewrite Hp in *; simpl; [done|].
  constructor; [|by apply IH]. simpl.
  unfold PriorityQueue.get_priority. rewrite Hfind. f_equal.
  apply Hpriced; [|done]. rewrite Hperm. apply elem_of_app. right. by left.
Qed.

(** Cheapest first: after any sequence of method calls on a new frontier of
    any of the three classes, repeated [pop] returns all the states of the
    frontier, in non-decreasing order of path cost, and ends with the
    IndexError of the empty heap. *)
Theorem frontier_pops_cheapest_first (D : hospital_domain) (calls : list method_call)
    (c : frontier_class) (heuristic : option Heuristic) :
  let self := (invoke_all D calls (mkFrontier c None PriorityQueue.init heuristic)).2 in
  (frontier_pop_all self).2 = IndexError ∧
  length (frontier_pop_all self).1 = FrontierBestFirst.size self ∧
  Sorted Z.le (path_cost <$> (frontier_pop_all self).1).
Proof.
  intros self.
  pose proof (invoke_all_frontier_queue D calls
                (mkFrontier c None PriorityQueue.init heuristic) init_frontier_queue) as Hq.
  fold self in Hq. pose proof Hq as (Hwf & Hlive & _ & _).
  unfold frontier_pop_all.
  set (fuel := S (length (PriorityQueue.heap (priority_queue self)))).
  rewrite frontier_pop_repeatedly_queue. cbn [fst snd].
  destruct (pops_drain fuel _ Hwf Hlive ltac:(unfold fuel; lia)) as [Hend Hlen].
  destruct (pops_sorted_any fuel _ Hwf Hlive) as (ps & Hps & Hsorted).
  pose proof (pops_priced fuel _ Hq) as Hpriced.
  split_and!; [done|by rewrite length_fmap|].
  assert (path_cost <$> (snd <$> (pop_repeatedly fuel (priority_queue self)).1) = ps)
    as ->; [|done].
  apply (inj (fmap Some)).
  change (fst <$> (pop_repeatedly fuel (priority_queue self)).1 = Some <$> ps) in Hps.
  rewrite <- Hps, <- !list_fmap_compose.
  apply list_eq_Forall2, Forall2_fmap.
  clear Hend Hlen Hps.
  induction Hpriced as [|r l Hr _ IH]; [constructor|].
  constructor; [by rewrite Hr|done].
Qed.

(** What a call of an inherited method does is the same for every class
    and whatever [self.heuristic] holds. *)
Lemma invoke_ignores_class D call c1 c2 gd pq h1 h2 :
  inherited call = true →
  ∃ r gd' pq',
    invoke D call (mkFrontier c1 gd pq h1) = (r, mkFrontier c1 gd' pq' h1) ∧
    invoke D call (mkFrontier c2 gd pq h2) = (r, mkFrontier c2 gd' pq' h2).
Proof.
  intros Hcall. destruct call; try done; unfold invoke, bind, ret; simpl.
  - by eexists _, _, _.
  - unfold FrontierBestFirst.add, FrontierBestFirst.contains, on_queue, bind, ret.
    simpl. case_bool_decide; simpl; by eexists _, _, _.
  - unfold FrontierBestFirst.pop, on_queue. simpl.
    destruct (PriorityQueue.pop pq) as [[state|e] pq']; by eexists _, _, _.
  - by eexists _, _, _.
  - by eexists _, _, _.
  - by eexists _, _, _.
  - by eexists _, _, _.
Qed.

Lemma invoke_all_ignores_class D calls c1 c2 gd pq h1 h2 :
  forallb inherited calls = true →
  (invoke_all D calls (mkFrontier c1 gd pq h1)).1
    = (invoke_all D calls (mkFrontier c2 gd pq h2)).1 ∧
  goal_description (invoke_all D calls (mkFrontier c1 gd pq h1)).2
    = goal_description (invoke_all D calls (mkFrontier c2 gd pq h2)).2 ∧
  priority_queue (invoke_all D calls (mkFrontier c1 gd pq h1)).2
    = priority_queue (invoke_all D calls (mkFrontier c2 gd pq h2)).2.
Proof.
  revert gd pq. induction calls as [|call calls IH]; intros gd pq Hall; simpl; [done|].
  simpl in Hall. apply andb_true_iff in Hall as [Hcall Hall].
  destruct (invoke_ignores_class D call c1 c2 gd pq h1 h2 Hcall)
    as (r & gd' & pq' & -> & ->).
  specialize (IH gd' pq' Hall).
  destruct (invoke_all D calls (mkFrontier c1 gd' pq' h1)) as [rs1 f1].
  destruct (invoke_all D calls (mkFrontier c2 gd' pq' h2)) as [rs2 f2].
  simpl in *. by destruct IH as (-> & -> & ->).
Qed.

(** The overridden [g] and [h] do not reach the queue: on a sequence of
    calls of the inherited methods (all but [g] and [h] themselves), an A*
    frontier and a greedy frontier return what a [FrontierBestFirst] returns,
    and end with the same queue. [add] ranks by
    [FrontierBestFirst.f], the path cost, in all three. *)
Theorem subclasses_rank_like_best_first (D : hospital_domain) (heuristic : Heuristic)
    (calls : list method_call) :
  forallb inherited calls = true →
  let base := invoke_all D calls FrontierBestFirst.init in
  let astar := invoke_all D calls (FrontierAStar.init heuristic) in
  let greedy := invoke_all D calls (FrontierGreedy.init heuristic) in
  astar.1 = base.1 ∧ priority_queue astar.2 = priority_queue base.2 ∧
  greedy.1 = base.1 ∧ priority_queue greedy.2 = priority_queue base.2.
Proof.
  intros Hall base astar greedy.
  destruct (invoke_all_ignores_class D calls AStar BestFirst None PriorityQueue.init
              (Some heuristic) None Hall) as (H1 & _ & H2).
  destruct (invoke_all_ignores_class D calls Greedy BestFirst None PriorityQueue.init
              (Some heuristic) None Hall) as (H3 & _ & H4).
  done.
Qed.

Lemma subclasses_rank_like_best_first_witness :
  (invoke_all (mkDomain (λ _, 7) (λ _, 9) (λ _ _, [1%nat]))
     [Call_prepare 0%nat; Call_add (mkState 1 5); Call_add (mkState 2 3); Call_pop]
     (FrontierAStar.init (λ _, 4))).1
  = (invoke_all (mkDomain (λ _, 7) (λ _, 9) (λ _ _, [1%nat]))
       [Call_prepare 0%nat; Call_add (mkState 1 5); Call_add (mkState 2 3); Call_pop]
       FrontierBestFirst.init).1.
Proof.
  apply (subclasses_rank_like_best_first
           (mkDomain (λ _, 7) (λ _, 9) (λ _ _, [1%nat])) (λ _, 4)
           [Call_prepare 0%nat; Call_add (mkState 1 5); Call_add (mkState 2 3); Call_pop]).
  reflexivity.
Defined.

Lemma filter_all {A} (P : A → Prop) `{!∀ x, Decision (P x)} (l : list A) :
  (∀ x, x ∈ l → P x) → filter P l = l.
Proof.
  induction l as [|a l IH]; intros HP; [done|].
  rewrite filter_cons_True by (apply HP; by left).
  f_equal. apply IH. intros x Hx. apply HP. by right.
Qed.

(** The frontier never changes a priority: after any sequence of method
    calls on a new frontier, no entry of the heap is invalidated, so the
    heap is as long as [size()], and the priority of a contained state is the
    path cost of the state object that the queue holds for it. *)
Theorem frontier_heap_has_no_invalidated_entry (D : hospital_domain)
    (calls : list method_call) (c : frontier_class) (heuristic : option Heuristic) :
  let q := priority_queue
             (invoke_all D calls (mkFrontier c None PriorityQueue.init heuristic)).2 in
  live_entries q = PriorityQueue.heap q ∧
  PriorityQueue.size q = length (PriorityQueue.heap q) ∧
  ∀ state p, PriorityQueue.get_priority state q = Some p →
    ∃ stored, element <$> tracked_entry state q = Some (Some stored) ∧
              state_id stored = state_id state ∧ p = path_cost stored.
Proof.
  intros q.
  destruct (invoke_all_frontier_queue D calls
              (mkFrontier c None PriorityQueue.init heuristic) init_frontier_queue)
    as (Hwf & Hlive & Hpriced & Hnone).
  fold q in Hwf, Hlive, Hpriced, Hnone.
  assert (live_entries q = PriorityQueue.heap q) as Hall.
  { unfold live_entries. apply filter_all. intros a Ha. unfold live.
    apply bool_decide_eq_true. by apply Hnone. }
  split_and!; [done| |].
  - by rewrite (size_live q Hwf Hlive), Hall.
  - intros state p (a & Ha & <-)%get_priority_Some.
    destruct (wf_finder q Hwf _ _ Ha) as (Hin & stored & Hs & Hid).
    exists stored. unfold tracked_entry. rewrite Ha. simpl. rewrite Hs.
    split_and!; [done..|]. by apply Hpriced.
Qed.

(** ** Reuse after [clear] *)

(** The first loop of [_siftup] ends inside the list. *)
Lemma siftup_loop_pos {A} `{!Inhabited A} (lt : A → A → bool) fuel (heap : list A) pos :
  (pos < length heap)%nat →
  ((heapq.siftup_loop lt fuel heap pos).2 < length heap)%nat.
Proof.
  revert heap pos. induction fuel as [|fuel IH]; intros heap pos Hpos;
    cbn [heapq.siftup_loop]; [done|].
  case_bool_decide as Hchild; [|done].
  case_bool_decide as Hright; cbn [andb].
  - destruct (negb _);
      (eapply Nat.lt_le_trans;
       [apply IH; rewrite length_insert; lia|by rewrite length_insert]).
  - eapply Nat.lt_le_trans;
      [apply IH; rewrite length_insert; lia|by rewrite length_insert].
Qed.

(** The functions of heapq commute with a renaming of the items that keeps
    their order. *)
Section heapq_renaming.
Context {A B : Type} `{!Inhabited A, !Inhabited B}.
Context (f : A → B) (lt1 : A → A → bool) (lt2 : B → B → bool).
Hypothesis lt_renamed : ∀ x y, lt2 (f x) (f y) = lt1 x y.

Lemma siftdown_loop_fmap fuel (heap : list A) x startpos pos :
  (pos < length heap)%nat →
  heapq.siftdown_loop lt2 fuel (f <$> heap) (f x) startpos pos
    = f <$> heapq.siftdown_loop lt1 fuel heap x startpos pos.
Proof.
  revert heap pos. induction fuel as [|fuel IH]; intros heap pos Hpos;
    cbn [heapq.siftdown_loop]; [by rewrite list_fmap_insert|].
  case_bool_decide as Hlt; [|by rewrite list_fmap_insert].
  assert ((pos - 1) / 2 < pos)%nat by (apply Nat.Div0.div_lt_upper_bound; lia).
  rewrite (list_lookup_total_fmap f) by lia. rewrite lt_renamed.
  destruct (lt1 x _); [|by rewrite list_fmap_insert].
  rewrite <- IH by (rewrite length_insert; lia). by rewrite list_fmap_insert.
Qed.

Lemma siftup_loop_fmap fuel (heap : list A) pos :
  heapq.siftup_loop lt2 fuel (f <$> heap) pos
    = (f <$> (heapq.siftup_loop lt1 fuel heap pos).1,
       (heapq.siftup_loop lt1 fuel heap pos).2).
Proof.
  revert heap pos. induction fuel as [|fuel IH]; intros heap pos;
    cbn [heapq.siftup_loop]; [done|].
  rewrite length_fmap. case_bool_decide as Hchild; [|done].
  case_bool_decide as Hright; cbn [andb].
  - rewrite (list_lookup_total_fmap f heap (2 * pos + 1)) by lia.
    rewrite (list_lookup_total_fmap f heap (2 * pos + 1 + 1)) by lia.
    rewrite lt_renamed.
    destruct (lt1 _ _); cbn [negb];
      rewrite (list_lookup_total_fmap f), <- list_fmap_insert by lia; apply IH.
  - rewrite (list_lookup_total_fmap f), <- list_fmap_insert by lia. apply IH.
Qed.

Lemma siftup_fmap (heap : list A) pos :
  (pos < length heap)%nat →
  heapq.siftup lt2 (f <$> heap) pos = f <$> heapq.siftup lt1 heap pos.
Proof.
  intros Hpos. unfold heapq.siftup.
  rewrite length_fmap, siftup_loop_fmap, (list_lookup_total_fmap f) by done.
  pose proof (siftup_loop_length lt1 (length heap) heap pos) as Hlen.
  destruct (heapq.siftup_loop lt1 (length heap) heap pos) as [heap' pos'] eqn:Hloop.
  simpl in *. unfold heapq.siftdown.
  assert (pos' < length heap')%nat as Hin.
  { pose proof (siftup_loop_pos lt1 (length heap) heap pos Hpos) as Hlt.
    rewrite Hloop in Hlt. simpl in Hlt. lia. }
  rewrite <- list_fmap_insert, (list_lookup_total_fmap f) by (by rewrite length_insert).
  apply siftdown_loop_fmap. by rewrite length_insert.
Qed.

Lemma heappush_fmap (heap : list A) x :
  heapq.heappush lt2 (f <$> heap) (f x) = f <$> heapq.heappush lt1 heap x.
Proof.
  unfold heapq.heappush, heapq.siftdown. rewrite length_fmap, <- fmap_snoc.
  rewrite (list_lookup_total_fmap f) by (rewrite length_app; simpl; lia).
  apply siftdown_loop_fmap. rewrite length_app. simpl. lia.
Qed.

Lemma heappop_fmap (heap : list A) :
  heapq.heappop lt2 (f <$> heap)
    = (λ r : A * list A, (f r.1, f <$> r.2)) <$> heapq.heappop lt1 heap.
Proof.
  unfold heapq.heappop. rewrite fmap_last.
  destruct (last heap) as [lastelt|] eqn:Hlast; [|done]. simpl.
  apply last_Some in Hlast as [front ->].
  rewrite fmap_snoc, !removelast_last.
  destruct front as [|r front]; [done|]. simpl. do 2 f_equal.
  by rewrite <- (siftup_fmap (lastelt :: front)) by (simpl; lia).
Qed.
End heapq_renaming.

Lemma relocate_lookup (old objs : list Entry) (a : nat) :
  (old ++ objs) !!! (length old + a)%nat = objs !!! a.
Proof.
  rewrite lookup_total_app_r by lia. f_equal. lia.
Qed.

Lemma relocate_ref_lt (old objs : list Entry) (x y : nat) :
  PriorityQueue.ref_lt (old ++ objs) (length old + x) (length old + y)
    = PriorityQueue.ref_lt objs x y.
Proof. unfold PriorityQueue.ref_lt. by rewrite !relocate_lookup. Qed.

Lemma add_relocate old x p q :
  PriorityQueue.add x p (relocate old q)
    = (Return tt, relocate old (PriorityQueue.add x p q).2).
Proof.
  unfold PriorityQueue.add, relocate. simpl. f_equal.
  rewrite <- app_assoc, length_app, fmap_insert. f_equal.
  apply heappush_fmap. apply relocate_ref_lt.
Qed.

Lemma change_priority_relocate old x p q :
  PriorityQueue.change_priority x p (relocate old q)
    = ((PriorityQueue.change_priority x p q).1,
       relocate old (PriorityQueue.change_priority x p q).2).
Proof.
  unfold PriorityQueue.change_priority. cbn [relocate PriorityQueue.entry_finder].
  rewrite lookup_fmap.
  destruct (PriorityQueue.entry_finder q !! state_id x) as [a|]; [|done]. simpl.
  rewrite alter_app_r, <- fmap_delete.
  exact (add_relocate old x p
           (PriorityQueue.mk (alter invalidate a (PriorityQueue.objs q))
              (PriorityQueue.heap q)
              (delete (state_id x) (PriorityQueue.entry_finder q))
              (PriorityQueue.counter q))).
Qed.

Lemma pop_loop_relocate fuel (old objs : list Entry) (heap : list nat) :
  PriorityQueue.pop_loop fuel (old ++ objs) ((λ a, length old + a)%nat <$> heap)
    = (match (PriorityQueue.pop_loop fuel objs heap).1 with
       | Return (a, state) => Return ((length old + a)%nat, state)
       | Raise e => Raise e
       end,
       (λ a, length old + a)%nat <$> (PriorityQueue.pop_loop fuel objs heap).2).
Proof.
  revert heap. induction fuel as [|fuel IH]; intros heap; [done|].
  cbn [PriorityQueue.pop_loop].
  rewrite (heappop_fmap (λ a, length old + a)%nat (PriorityQueue.ref_lt objs))
    by apply relocate_ref_lt.
  destruct (heapq.heappop _ heap) as [[a heap']|]; [|done]. simpl.
  rewrite relocate_lookup. destruct (element (objs !!! a)); [done|]. apply IH.
Qed.

Lemma pop_relocate old q :
  PriorityQueue.pop (relocate old q)
    = ((PriorityQueue.pop q).1, relocate old (PriorityQueue.pop q).2).
Proof.
  unfold PriorityQueue.pop, relocate.
  cbn [PriorityQueue.objs PriorityQueue.heap PriorityQueue.entry_finder
       PriorityQueue.counter].
  rewrite length_fmap, pop_loop_relocate.
  destruct (PriorityQueue.pop_loop _ _ _) as [[[a state]|e] heap']; [|done].
  cbn [fst snd].
  rewrite lookup_fmap.
  destruct (PriorityQueue.entry_finder q !! state_id state); [|done]. simpl.
  by rewrite fmap_delete.
Qed.

Lemma clear_relocate old q :
  PriorityQueue.clear (relocate old q)
    = (Return tt, relocate old (PriorityQueue.clear q).2).
Proof. unfold PriorityQueue.clear, relocate. simpl. by rewrite fmap_empty. Qed.

Lemma perform_relocate old o q :
  perform o (relocate old q) = ((perform o q).1, relocate old (perform o q).2).
Proof.
  destruct o as [x p|x p| |]; unfold perform, bind, ret.
  - by rewrite add_relocate.
  - rewrite change_priority_relocate.
    by destruct (PriorityQueue.change_priority x p q) as [[[]|e] q'].
  - rewrite pop_relocate. by destruct (PriorityQueue.pop q) as [[state|e] q'].
  - by rewrite clear_relocate.
Qed.

Lemma run_relocate old ops q : run ops (relocate old q) = relocate old (run ops q).
Proof.
  revert q. induction ops as [|o ops IH]; intros q; simpl; [done|].
  rewrite perform_relocate. simpl. apply IH.
Qed.

Lemma outcomes_relocate old ops q : outcomes ops (relocate old q) = outcomes ops q.
Proof.
  revert q. induction ops as [|o ops IH]; intros q; simpl; [done|].
  rewrite perform_relocate. simpl. by rewrite IH.
Qed.

Lemma get_priority_relocate old s q :
  PriorityQueue.get_priority s (relocate old q) = PriorityQueue.get_priority s q.
Proof.
  unfold PriorityQueue.get_priority, relocate. simpl. rewrite lookup_fmap.
  destruct (PriorityQueue.entry_finder q !! state_id s); [|done]. simpl.
  by rewrite relocate_lookup.
Qed.

Lemma size_relocate old q : PriorityQueue.size (relocate old q) = PriorityQueue.size q.
Proof. unfold PriorityQueue.size, relocate. simpl. apply map_size_fmap. Qed.

Lemma clear_is_relocated_init q :
  (PriorityQueue.clear q).2 = relocate (PriorityQueue.objs q) PriorityQueue.init.
Proof. unfold PriorityQueue.clear, relocate. simpl. by rewrite fmap_empty, app_nil_r. Qed.

(** A cleared queue is as good as new: whatever the queue was, after
    [clear()] every sequence of operations returns and raises what it does on
    a new queue, and leaves the same priorities and the same [size()]. *)
Theorem cleared_queue_is_as_new (q : PriorityQueue.t) (ops : list queue_op) :
  let reused := (PriorityQueue.clear q).2 in
  outcomes ops reused = outcomes ops PriorityQueue.init ∧
  (∀ s, PriorityQueue.get_priority s (run ops reused)
        = PriorityQueue.get_priority s (run ops PriorityQueue.init)) ∧
  PriorityQueue.size (run ops reused) = PriorityQueue.size (run ops PriorityQueue.init) ∧
  PriorityQueue.counter (run ops reused) = PriorityQueue.counter (run ops PriorityQueue.init).
Proof.
  intros reused. unfold reused. rewrite clear_is_relocated_init.
  rewrite outcomes_relocate, run_relocate. split_and!; [done| |apply size_relocate|done].
  intros s. apply get_priority_relocate.
Qed.

Lemma invoke_relocate D call c gd pq h old :
  invoke D call (mkFrontier c gd (relocate old pq) h)
    = ((invoke D call (mkFrontier c gd pq h)).1,
       mkFrontier c
         (goal_description (invoke D call (mkFrontier c gd pq h)).2)
         (relocate old (priority_queue (invoke D call (mkFrontier c gd pq h)).2))
         h).
Proof.
  destruct call; unfold invoke, bind, ret; simpl.
  - unfold FrontierBestFirst.prepare, on_queue, relocate. simpl. by rewrite fmap_empty.
  - unfold FrontierBestFirst.add, FrontierBestFirst.contains. simpl.
    rewrite get_priority_relocate.
    case_bool_decide; simpl; [|done].
    exact (f_equal (λ r : result unit * PriorityQueue.t,
                      (Return VNone, mkFrontier c gd r.2 h))
             (add_relocate old state (path_cost state) pq)).
  - unfold FrontierBestFirst.pop, on_queue. simpl. rewrite pop_relocate.
    by destruct (PriorityQueue.pop pq) as [[state|e] pq'].
  - unfold FrontierBestFirst.contains. simpl. by rewrite get_priority_relocate.
  - unfold FrontierBestFirst.size. simpl. by rewrite size_relocate.
  - unfold FrontierBestFirst.is_empty, FrontierBestFirst.size. simpl.
    by rewrite size_relocate.
  - done.
  - done.
  - done.
Qed.

Lemma invoke_all_relocate D calls c gd pq h old :
  (invoke_all D calls (mkFrontier c gd (relocate old pq) h)).1
    = (invoke_all D calls (mkFrontier c gd pq h)).1.
Proof.
  revert gd pq. induction calls as [|call calls IH]; intros gd pq; simpl; [done|].
  rewrite invoke_relocate.
  destruct (invoke_ignores_heuristic D call c gd pq h h) as (r & gd' & pq' & Hcall & _).
  rewrite Hcall. simpl. specialize (IH gd' pq').
  destruct (invoke_all D calls (mkFrontier c gd' (relocate old pq') h)) as [rs1 f1].
  destruct (invoke_all D calls (mkFrontier c gd' pq' h)) as [rs2 f2].
  simpl in IH. by rewrite IH.
Qed.

(** A frontier can be reused: whatever state a frontier is in, after
    [prepare(goal)] every sequence of method calls returns and raises what it
    does on a new frontier of the same class prepared for the same goal. *)
Theorem prepared_frontier_is_as_new (D : hospital_domain) (self : Frontier)
    (goal : HospitalGoalDescription) (calls : list method_call) :
  (invoke_all D (Call_prepare goal :: calls) self).1
    = (invoke_all D (Call_prepare goal :: calls)
         (mkFrontier (cls self) None PriorityQueue.init (heuristic self))).1.
Proof.
  destruct self as [c gd pq h]. cbn [invoke_all cls heuristic].
  assert (invoke D (Call_prepare goal) (mkFrontier c gd pq h)
          = (Return VNone,
             mkFrontier c (Some goal) (relocate (PriorityQueue.objs pq) PriorityQueue.init) h))
    as ->.
  { unfold invoke, bind, ret, FrontierBestFirst.prepare, on_queue. simpl.
    do 2 f_equal. apply (clear_is_relocated_init pq). }
  assert (invoke D (Call_prepare goal) (mkFrontier c None PriorityQueue.init h)
          = (Return VNone, mkFrontier c (Some goal) PriorityQueue.init h)) as ->
    by reflexivity.
  pose proof (invoke_all_relocate D calls c (Some goal) PriorityQueue.init h
                (PriorityQueue.objs pq)) as Hsame.
  destruct (invoke_all D calls
              (mkFrontier c (Some goal) (relocate (PriorityQueue.objs pq) PriorityQueue.init) h))
    as [rs1 f1].
  destruct (invoke_all D calls (mkFrontier c (Some goal) PriorityQueue.init h)) as [rs2 f2].
  simpl in *. by rewrite Hsame.
Qed.

(** ** [add] of a tracked payload, and both entries returned *)



(** The calls [add(x, 1); add(x, 2); pop(); add(x, 3); pop()] on a new
    queue: both [pop] return [x], the first from the entry of the first
    [add] and the second from the entry of the second; the entry of the
    third [add] is what the heap holds at the end, and the index is empty. *)
Lemma double_add_scenario :
  let x := mkState 1 5 in
  let ops := [Op_add x 1; Op_add x 2; Op_pop; Op_add x 3; Op_pop] in
  outcomes ops PriorityQueue.init
    = [Return None; Return None; Return (Some x); Return None; Return (Some x)] ∧
  PriorityQueue.heap (run [Op_add x 1; Op_add x 2] PriorityQueue.init) ≡ₚ [0; 1]%nat ∧
  PriorityQueue.heap (run [Op_add x 1; Op_add x 2; Op_pop] PriorityQueue.init) = [1%nat] ∧
  PriorityQueue.heap (run ops PriorityQueue.init) = [2%nat] ∧
  PriorityQueue.size (run ops PriorityQueue.init) = 0%nat.
Proof. split_and!; reflexivity. Qed.


